(** * Goodix gtx8 touchscreen core layer: goodix_ts_core.h

    A shallow embedding of the definitions of
    drivers/input/touchscreen/gtx8/goodix_ts_core.h and the properties the
    specification states about them.

    - [Checksum]: the six inline checksum helpers, over a buffer with an
      explicit extent, so that a read outside the buffer is a result of its
      own.
    - [Cmd]: struct goodix_ts_cmd and its packed layout.
    - [Regs]: struct goodix_ts_regs and the two static register tables.
    - [Decoder], [Core]: the event decoder, the controller operations and
      the ESD watchdog, which the header only declares. *)

From Stdlib Require Import ZArith Lia.
From Stdlib.Strings Require Import Byte.
From stdpp Require Import base list numbers.

Local Open Scope Z_scope.

(** ** Machine integers *)

Definition u8 (z : Z) : Z := z mod 2 ^ 8.
Definition u16 (z : Z) : Z := z mod 2 ^ 16.
Definition u32 (z : Z) : Z := z mod 2 ^ 32.

(** The value of a byte of the buffer, 0..255. *)
Definition u8_val (b : byte) : Z := Z.of_N (Byte.to_N b).

(** The sum of the bytes of a buffer, as an unbounded integer. *)
Definition sum_bytes (l : list byte) : Z :=
  foldr (fun b acc => u8_val b + acc) 0 l.

Module Checksum.

(** What a call of a checksum helper does on a buffer of known extent. *)
Inductive outcome : Type :=
| Done (v : Z)      (* the helper returned v *)
| Fault (i : Z)     (* the read at offset i left the buffer *)
| Timeout.          (* the loop was cut off before it ended *)

(** [data[i]] *)
Definition read_u8 (data : list byte) (i : Z) : option Z :=
  u8_val <$> data !! Z.to_nat i.

(** [le16_to_cpup((__le16 * )(data + i))] *)
Definition le16_to_cpup (data : list byte) (i : Z) : option Z :=
  b0 ← read_u8 data i;
  b1 ← read_u8 data (i + 1);
  Some (Z.lor b0 (Z.shiftl b1 8)).

(** [be16_to_cpup((__be16 * )(data + i))] *)
Definition be16_to_cpup (data : list byte) (i : Z) : option Z :=
  b0 ← read_u8 data i;
  b1 ← read_u8 data (i + 1);
  Some (Z.lor (Z.shiftl b0 8) b1).

(** [le32_to_cpup((__le32 * )(data + i))] *)
Definition le32_to_cpup (data : list byte) (i : Z) : option Z :=
  b0 ← read_u8 data i;
  b1 ← read_u8 data (i + 1);
  b2 ← read_u8 data (i + 2);
  b3 ← read_u8 data (i + 3);
  Some (Z.lor (Z.lor b0 (Z.shiftl b1 8))
              (Z.lor (Z.shiftl b2 16) (Z.shiftl b3 24))).

(** [be32_to_cpup((__be32 * )(data + i))] *)
Definition be32_to_cpup (data : list byte) (i : Z) : option Z :=
  b0 ← read_u8 data i;
  b1 ← read_u8 data (i + 1);
  b2 ← read_u8 data (i + 2);
  b3 ← read_u8 data (i + 3);
  Some (Z.lor (Z.lor (Z.shiftl b0 24) (Z.shiftl b1 16))
              (Z.lor (Z.shiftl b2 8) b3)).

(** The loop the six helpers share,
    [for (i = 0; i < bound; i += stride) checksum += load(data, i);]
    with [i] a u32 and [checksum] of the width [wrap] truncates to. *)
Section sum_loop.
Variable wrap : Z -> Z.
Variable stride : Z.
Variable load : list byte -> Z -> option Z.

Fixpoint sum_loop (fuel : nat) (data : list byte) (bound i checksum : Z)
  : outcome :=
  match fuel with
  | O => Timeout
  | S fuel' =>
      if i <? bound then
        match load data i with
        | Some v =>
            sum_loop fuel' data bound (u32 (i + stride)) (wrap (checksum + v))
        | None => Fault i
        end
      else Done checksum
  end.

(** The sum of the [m] loads at [i], [i + stride], ... *)
Fixpoint loads_sum (m : nat) (data : list byte) (i : Z) : Z :=
  match m with
  | O => 0
  | S m' => default 0 (load data i) + loads_sum m' data (i + stride)
  end.
End sum_loop.

(** An iteration that does not fault has read [stride] bytes inside the
    buffer, so [length data + 1] iterations are enough for every buffer the
    u32 counter can run over (see [sum_loop_no_timeout]). *)
Definition fuel_for (data : list byte) : nat := S (length data).

(** [u8 checksum = 0;]
    [for (i = 0; i < size; i++) checksum += data[i];]
    [return checksum;] *)
Definition checksum_u8 (data : list byte) (size : Z) : outcome :=
  sum_loop u8 1 read_u8 (fuel_for data) data size 0 0.

(** cal u8 data checksum for yellowston:
    [u16 checksum = 0;]
    [for (i = 0; i < size - 2; i++) checksum += data[i];]
    [return checksum - (data[size - 2] << 8 | data[size - 1]);]
    where [size - 2] and [size - 1] are u32 and the difference is truncated
    to the u16 the function returns. *)
Definition checksum_u8_ys (data : list byte) (size : Z) : outcome :=
  match sum_loop u16 1 read_u8 (fuel_for data) data (u32 (size - 2)) 0 0 with
  | Done checksum =>
      match read_u8 data (u32 (size - 2)), read_u8 data (u32 (size - 1)) with
      | Some hi, Some lo => Done (u16 (checksum - Z.lor (Z.shiftl hi 8) lo))
      | None, _ => Fault (u32 (size - 2))
      | Some _, None => Fault (u32 (size - 1))
      end
  | r => r
  end.

(** [u16 checksum = 0;]
    [for (i = 0; i < size; i += 2) checksum += le16_to_cpup((__le16 * )(data + i));]
    [return checksum;] and likewise the next three. *)
Definition checksum_le16 (data : list byte) (size : Z) : outcome :=
  sum_loop u16 2 le16_to_cpup (fuel_for data) data size 0 0.

Definition checksum_be16 (data : list byte) (size : Z) : outcome :=
  sum_loop u16 2 be16_to_cpup (fuel_for data) data size 0 0.

Definition checksum_le32 (data : list byte) (size : Z) : outcome :=
  sum_loop u32 4 le32_to_cpup (fuel_for data) data size 0 0.

Definition checksum_be32 (data : list byte) (size : Z) : outcome :=
  sum_loop u32 4 be32_to_cpup (fuel_for data) data size 0 0.

(** A load of [k] bytes is defined exactly when its bytes are all inside
    the buffer. *)
Definition load_of_width (k : Z) (load : list byte -> Z -> option Z) : Prop :=
  forall data i, 0 <= i ->
    is_Some (load data i) <-> i + k <= Z.of_nat (length data).

End Checksum.

(** ** struct goodix_ts_cmd - command package *)
Module Cmd.

(** The C types of the members of the header's structs. *)
Inductive ctype : Type :=
| U8 | U16 | U32
| Arr (t : ctype) (n : Z).

Fixpoint sizeof (t : ctype) : Z :=
  match t with
  | U8 => 1
  | U16 => 2
  | U32 => 4
  | Arr t n => sizeof t * n
  end.

Fixpoint alignof (t : ctype) : Z :=
  match t with
  | U8 => 1
  | U16 => 2
  | U32 => 4
  | Arr t _ => alignof t
  end.

(** Under [#pragma pack(n)] a member is aligned to the smaller of its
    natural alignment and [n]. *)
Definition member_align (pack : Z) (t : ctype) : Z := Z.min (alignof t) pack.

Definition align_up (off a : Z) : Z := (off + a - 1) / a * a.

(** Offsets of the members laid out from [off] on, and the first free
    offset after the last one. *)
Fixpoint layout_from (pack off : Z) (ms : list ctype) : list Z * Z :=
  match ms with
  | [] => ([], off)
  | t :: ms' =>
      let o := align_up off (member_align pack t) in
      let '(os, e) := layout_from pack (o + sizeof t) ms' in
      (o :: os, e)
  end.

Definition struct_align (pack : Z) (ms : list ctype) : Z :=
  foldr (fun t a => Z.max (member_align pack t) a) 1 ms.

Definition offsets (pack : Z) (ms : list ctype) : list Z :=
  fst (layout_from pack 0 ms).

Definition struct_size (pack : Z) (ms : list ctype) : Z :=
  align_up (snd (layout_from pack 0 ms)) (struct_align pack ms).

(** [#pragma pack(4)]
    [struct goodix_ts_cmd { u32 initialized; u32 cmd_reg; u32 length; u8 cmds[8]; };] *)
Definition goodix_ts_cmd_pack : Z := 4.
Definition goodix_ts_cmd_members : list ctype := [U32; U32; U32; Arr U8 8].

Record goodix_ts_cmd : Type := {
  initialized : Z;
  cmd_reg : Z;
  length : Z;
  cmds : list byte
}.

(** A value of the struct: three u32 and eight bytes. *)
Definition well_typed (c : goodix_ts_cmd) : Prop :=
  0 <= initialized c < 2 ^ 32 /\ 0 <= cmd_reg c < 2 ^ 32 /\
  0 <= length c < 2 ^ 32 /\ List.length (cmds c) = 8%nat.

Definition byte_of_Z (z : Z) : byte :=
  default x00 (Byte.of_N (Z.to_N (z mod 256))).

(** Modelled from the spec: the byte order of the 4-byte fields of the
    Command record, which the header leaves to the CPU (little-endian
    fields, spec section 6). *)
Definition le32_bytes (z : Z) : list byte :=
  [byte_of_Z z; byte_of_Z (Z.shiftr z 8);
   byte_of_Z (Z.shiftr z 16); byte_of_Z (Z.shiftr z 24)].

Definition le32_value (bs : list byte) : Z :=
  foldr (fun b acc => u8_val b + 256 * acc) 0 bs.

(** The bytes of a member written at its offset of an image. *)
Definition place (off : Z) (bs : list byte) (img : list byte) : list byte :=
  take (Z.to_nat off) img ++ bs ++ drop (Z.to_nat off + List.length bs) img.

(** The image of a struct value: every member stored at the offset the
    packed layout gives it. *)
Definition image (c : goodix_ts_cmd) : list byte :=
  let members :=
    [le32_bytes (initialized c); le32_bytes (cmd_reg c);
     le32_bytes (length c); cmds c] in
  foldr (fun '(off, bs) img => place off bs img)
    (replicate (Z.to_nat (struct_size goodix_ts_cmd_pack goodix_ts_cmd_members)) x00)
    (zip (offsets goodix_ts_cmd_pack goodix_ts_cmd_members) members).

(** The bytes [first .. last] of an image. *)
Definition slice (first last : Z) (img : list byte) : list byte :=
  take (Z.to_nat (last - first + 1)) (drop (Z.to_nat first) img).

(** Modelled from the spec: the Command invariant, which the header's u32
    [length] does not carry ([length <= 8], spec section 3). *)
Definition valid (c : goodix_ts_cmd) : Prop :=
  well_typed c /\ length c <= 8.

(** Modelled from the spec: send_cmd, which the header declares only as a
    member of goodix_ts_hw_ops. It transmits the first [length] bytes of
    [cmds] to the command register (spec sections 6 and 8). *)
Definition send_cmd (c : goodix_ts_cmd) : Z * list byte :=
  (cmd_reg c, take (Z.to_nat (length c)) (cmds c)).

(** A command of three bytes for the normandy command register. *)
Definition sample_cmd : goodix_ts_cmd :=
  {| initialized := 1; cmd_reg := 28520; length := 3;
     cmds := [x01; x02; x03; x00; x00; x00; x00; x00] |}.

End Cmd.

(** ** struct goodix_ts_regs and the two register tables *)
Module Regs.

Record goodix_ts_regs : Type := {
  version_base : Z;
  version_len : Z;
  pid : Z;
  pid_len : Z;
  vid : Z;
  vid_len : Z;
  sensor_id : Z;
  sensor_id_mask : Z;
  cfg_addr : Z;
  esd : Z;
  command : Z;
  coor : Z;
  fw_request : Z;
  proximity : Z
}.

Definition goodix_ts_regs_normandy : goodix_ts_regs := {|
  version_base := 17708;
  version_len := 72;
  pid := 17717;
  pid_len := 4;
  vid := 17725;
  vid_len := 4;
  sensor_id := 17729;
  sensor_id_mask := 15;
  cfg_addr := 28536;
  esd := 12531;
  command := 28520;
  coor := 16640;
  fw_request := 0;
  proximity := 0
|}.

Definition goodix_ts_regs_yellowstone : goodix_ts_regs := {|
  version_base := 16404;
  version_len := 135;
  pid := 16418;
  pid_len := 4;
  vid := 16426;
  vid_len := 4;
  sensor_id := 16431;
  sensor_id_mask := 15;
  cfg_addr := 38648;
  esd := 16742;
  command := 16736;
  coor := 16768;
  fw_request := 16768;
  proximity := 16770
|}.

Definition IC_TYPE_NORMANDY : Z := 0.
Definition IC_TYPE_YELLOWSTONE : Z := 1.

(** The address fields of the map (the u16 members that are not lengths or
    masks). *)
Definition address_fields : list (goodix_ts_regs -> Z) :=
  [version_base; pid; vid; sensor_id; cfg_addr; esd; command; coor;
   fw_request; proximity].

(** A transfer on the bus. *)
Inductive bus_op : Type :=
| BusRead (addr len : Z)
| BusWrite (addr : Z) (data : list byte).

Definition bus_addr (o : bus_op) : Z :=
  match o with
  | BusRead a _ => a
  | BusWrite a _ => a
  end.

(** Modelled from the spec: how a code path consults an address field of the
    map; the header holds the tables only. A zero field is the absent
    capability, any other value the register's address (spec section 4.2). *)
Definition capability (addr : Z) : option Z :=
  if addr =? 0 then None else Some addr.

(** Modelled from the spec: a register read and a register write by upper
    layers, through the map (spec section 4.2). [None] is "capability
    absent"; otherwise the transfer issued on the bus. *)
Definition reg_read (regs : goodix_ts_regs) (field : goodix_ts_regs -> Z)
    (len : Z) : option bus_op :=
  a ← capability (field regs); Some (BusRead a len).

Definition reg_write (regs : goodix_ts_regs) (field : goodix_ts_regs -> Z)
    (data : list byte) : option bus_op :=
  a ← capability (field regs); Some (BusWrite a data).

End Regs.

(** ** Touch events and the event decoder *)
Module Decoder.

Definition GOODIX_MAX_TOUCH : Z := 10.
Definition GOODIX_MAX_TP_KEY : Z := 4.
Definition GOODIX_MAX_PEN_KEY : Z := 2.

Definition GOODIX_TOUCH_EVENT : Z := 0x80.
Definition GOODIX_REQUEST_EVENT : Z := 0x40.
Definition GOODIX_GESTURE_EVENT : Z := 0x20.
Definition GOODIX_HOTKNOT_EVENT : Z := 0x10.

(** enum ts_event_type *)
Definition EVENT_INVALID : Z := 0.
Definition EVENT_TOUCH : Z := Z.shiftl 1 0.
Definition EVENT_PEN : Z := Z.shiftl 1 1.
Definition EVENT_REQUEST : Z := Z.shiftl 1 2.

(** enum touch_point_status *)
Definition TS_NONE : Z := 0.
Definition TS_RELEASE : Z := 1.
Definition TS_TOUCH : Z := 2.

Record goodix_ts_coords : Type := {
  status : Z;
  x : Z; y : Z; w : Z; p : Z
}.

Record goodix_pen_coords : Type := {
  pen_status : Z;
  tool_type : Z;
  pen_x : Z; pen_y : Z; pen_p : Z;
  tilt_x : Z;
  tilt_y : Z
}.

Record goodix_ts_key : Type := {
  key_status : Z;
  code : Z
}.

Record goodix_touch_data : Type := {
  touch_num : Z;
  coords : list goodix_ts_coords;   (* coords[GOODIX_MAX_TOUCH] *)
  keys : list goodix_ts_key         (* keys[GOODIX_MAX_TP_KEY] *)
}.

Record goodix_pen_data : Type := {
  pen_coords : goodix_pen_coords;
  pen_keys : list goodix_ts_key     (* keys[GOODIX_MAX_PEN_KEY] *)
}.

Record goodix_ts_event : Type := {
  event_type : Z;
  touch_data : goodix_touch_data;
  pen_data : goodix_pen_data
}.

Definition no_coords : goodix_ts_coords :=
  {| status := TS_NONE; x := 0; y := 0; w := 0; p := 0 |}.
Definition no_key : goodix_ts_key := {| key_status := 0; code := 0 |}.
Definition no_pen : goodix_pen_data :=
  {| pen_coords := {| pen_status := TS_NONE; tool_type := 0; pen_x := 0;
                      pen_y := 0; pen_p := 0; tilt_x := 0; tilt_y := 0 |};
     pen_keys := replicate (Z.to_nat GOODIX_MAX_PEN_KEY) no_key |}.

(** A zeroed event record: the arrays have the extents the struct declares. *)
Definition empty_touch_data : goodix_touch_data :=
  {| touch_num := 0;
     coords := replicate (Z.to_nat GOODIX_MAX_TOUCH) no_coords;
     keys := replicate (Z.to_nat GOODIX_MAX_TP_KEY) no_key |}.

Definition empty_event : goodix_ts_event :=
  {| event_type := EVENT_INVALID; touch_data := empty_touch_data;
     pen_data := no_pen |}.

(** [td->coords[i] = c]: [None] when [i] is outside the array. *)
Definition store_coords (i : Z) (c : goodix_ts_coords)
    (td : goodix_touch_data) : option goodix_touch_data :=
  if (0 <=? i) && (i <? Z.of_nat (List.length (coords td))) then
    Some {| touch_num := touch_num td;
            coords := <[Z.to_nat i := c]> (coords td);
            keys := keys td |}
  else None.

Inductive decode_error : Type :=
| DecodeFailure
| ChecksumMismatch.

Inductive decoded : Type :=
| Event (e : goodix_ts_event)
| Rejected (err : decode_error)
| OutOfBounds (i : Z).          (* an access to coords[i] left the array *)

(** Modelled from the spec: the event decoder behind the event_handler
    member of goodix_ts_hw_ops, which the header only declares (spec
    section 4.3). The payload layout of the bound chip variant is a
    parameter; the decoder returns its result and the indices of the
    coordinate array it accessed, in program order. *)
Section decoder.
(** The declared touch-count of a payload. *)
Variable touch_count : list byte -> Z.
(** The point record number [i] of a payload. *)
Variable read_point : list byte -> Z -> goodix_ts_coords.
(** The pen record of a payload, when the device has a pen and pen data
    is present. *)
Variable read_pen : list byte -> option goodix_pen_data.
(** The variant's checksum of the whole payload is right. *)
Variable checksum_ok : list byte -> bool.

(** Step 2, the points [i], [i + 1], ... of the payload, [n] of them. *)
Fixpoint read_points (n : nat) (payload : list byte) (i : Z)
    (td : goodix_touch_data) (accessed : list Z)
  : (goodix_touch_data + Z) * list Z :=
  match n with
  | O => (inl td, accessed)
  | S n' =>
      match store_coords i (read_point payload i) td with
      | Some td' => read_points n' payload (i + 1) td' (accessed ++ [i])
      | None => (inr i, accessed ++ [i])
      end
  end.

Definition has_bit (status mask : Z) : bool :=
  negb (Z.land status mask =? 0).

Definition decode_event (status : Z) (payload : list byte)
  : decoded * list Z :=
  (* 1. the event-type bitmask *)
  let ty :=
    Z.lor (if has_bit status GOODIX_TOUCH_EVENT then EVENT_TOUCH else 0)
          (if has_bit status GOODIX_REQUEST_EVENT then EVENT_REQUEST else 0) in
  (* 2. touch-count and points *)
  let touch :=
    if has_bit status GOODIX_TOUCH_EVENT then
      let n := touch_count payload in
      if n >? GOODIX_MAX_TOUCH then (inr (Rejected DecodeFailure), [])
      else
        match read_points (Z.to_nat n) payload 0
                {| touch_num := n; coords := coords empty_touch_data;
                   keys := keys empty_touch_data |} [] with
        | (inl td, acc) => (inl td, acc)
        | (inr i, acc) => (inr (OutOfBounds i), acc)
        end
    else (inl empty_touch_data, []) in
  match touch with
  | (inr r, acc) => (r, acc)
  | (inl td, acc) =>
      (* 3. the pen record *)
      let '(ty, pd) :=
        match read_pen payload with
        | Some pd => (Z.lor ty EVENT_PEN, pd)
        | None => (ty, no_pen)
        end in
      (* 4, 5. the checksum of the whole payload *)
      if checksum_ok payload then
        (Event {| event_type := ty; touch_data := td; pen_data := pd |}, acc)
      else (Rejected ChecksumMismatch, acc)
  end.
End decoder.

(** A payload layout for examples: the touch-count is the first payload
    byte, the points follow with five bytes each, and the last byte makes
    the 8-bit sum of the payload zero. *)
Definition sample_touch_count (payload : list byte) : Z :=
  default 0 (Checksum.read_u8 payload 0).

Definition sample_read_point (payload : list byte) (i : Z) : goodix_ts_coords :=
  let b k := default 0 (Checksum.read_u8 payload (1 + 5 * i + k)) in
  {| status := b 0; x := b 1; y := b 2; w := b 3; p := b 4 |}.

Definition sample_checksum_ok (payload : list byte) : bool :=
  match Checksum.checksum_u8 payload (Z.of_nat (List.length payload)) with
  | Checksum.Done 0 => true
  | _ => false
  end.

Definition sample_decode : Z -> list byte -> decoded * list Z :=
  decode_event sample_touch_count sample_read_point (fun _ => None)
    sample_checksum_ok.

End Decoder.

(** ** The core controller and the ESD watchdog *)
Module Core.

Definition GOODIX_ESD_TICK_WRITE_DATA : Z := 0xAA.

(** enum ts_notify_event *)
Inductive ts_notify_event : Type :=
| NOTIFY_SUSPEND
| NOTIFY_RESUME
| NOTIFY_ESD_OFF
| NOTIFY_ESD_ON.

(** The members of struct goodix_ts_board_data the controller reads. *)
Record goodix_ts_board_data : Type := {
  avdd_load : Z;
  irq_flags : Z;
  power_on_delay_us : Z;
  power_off_delay_us : Z;
  esd_default_on : bool
}.

(** What the controller does to the world outside its own data. *)
Inductive hw_event : Type :=
| RegulatorEnable (load : Z)
| RegulatorDisable
| Delay (us : Z)
| RequestIrq (irq flags : Z)
| EnableIrq (irq : Z)
| DisableIrq (irq : Z)
| PinSuspend
| PinActive
| HwSuspend
| HwResume
| HwReset
| HwInit
| CheckHw
| LivenessWrite (addr data : Z)
| EsdCancel
| EsdSchedule
| Notify (e : ts_notify_event).

(** The members of struct goodix_ts_core (and of its goodix_ts_esd) the
    operations write, the flags as booleans, followed by the state of the
    platform they act on. *)
Record goodix_ts_core : Type := {
  power_on : bool;
  irq : Z;
  irq_enabled : bool;           (* atomic_t irq_enabled *)
  suspended : bool;             (* atomic_t suspended *)
  esd_on : bool;                (* atomic_t ts_esd.esd_on *)
  (* the interrupt controller: the line's handler and disable depth *)
  irq_requested : bool;
  irq_depth : Z;
  (* the periodic task of the watchdog is scheduled *)
  esd_scheduled : bool;
  (* the effects so far, each with the suspended flag at its time *)
  hw_log : list (bool * hw_event)
}.

Definition set_power_on (b : bool) (s : goodix_ts_core) : goodix_ts_core :=
  {| power_on := b; irq := irq s; irq_enabled := irq_enabled s;
     suspended := suspended s; esd_on := esd_on s;
     irq_requested := irq_requested s; irq_depth := irq_depth s;
     esd_scheduled := esd_scheduled s; hw_log := hw_log s |}.

Definition set_irq_enabled (b : bool) (s : goodix_ts_core) : goodix_ts_core :=
  {| power_on := power_on s; irq := irq s; irq_enabled := b;
     suspended := suspended s; esd_on := esd_on s;
     irq_requested := irq_requested s; irq_depth := irq_depth s;
     esd_scheduled := esd_scheduled s; hw_log := hw_log s |}.

Definition set_suspended (b : bool) (s : goodix_ts_core) : goodix_ts_core :=
  {| power_on := power_on s; irq := irq s; irq_enabled := irq_enabled s;
     suspended := b; esd_on := esd_on s;
     irq_requested := irq_requested s; irq_depth := irq_depth s;
     esd_scheduled := esd_scheduled s; hw_log := hw_log s |}.

Definition set_esd_on (b : bool) (s : goodix_ts_core) : goodix_ts_core :=
  {| power_on := power_on s; irq := irq s; irq_enabled := irq_enabled s;
     suspended := suspended s; esd_on := b;
     irq_requested := irq_requested s; irq_depth := irq_depth s;
     esd_scheduled := esd_scheduled s; hw_log := hw_log s |}.

Definition set_irq_line (requested : bool) (depth : Z) (s : goodix_ts_core)
    : goodix_ts_core :=
  {| power_on := power_on s; irq := irq s; irq_enabled := irq_enabled s;
     suspended := suspended s; esd_on := esd_on s;
     irq_requested := requested; irq_depth := depth;
     esd_scheduled := esd_scheduled s; hw_log := hw_log s |}.

Definition set_esd_scheduled (b : bool) (s : goodix_ts_core) : goodix_ts_core :=
  {| power_on := power_on s; irq := irq s; irq_enabled := irq_enabled s;
     suspended := suspended s; esd_on := esd_on s;
     irq_requested := irq_requested s; irq_depth := irq_depth s;
     esd_scheduled := b; hw_log := hw_log s |}.

(** An effect, logged with the suspended flag of the moment. *)
Definition emit (e : hw_event) (s : goodix_ts_core) : goodix_ts_core :=
  {| power_on := power_on s; irq := irq s; irq_enabled := irq_enabled s;
     suspended := suspended s; esd_on := esd_on s;
     irq_requested := irq_requested s; irq_depth := irq_depth s;
     esd_scheduled := esd_scheduled s;
     hw_log := hw_log s ++ [(suspended s, e)] |}.

Definition init_core (irq_no : Z) : goodix_ts_core :=
  {| power_on := false; irq := irq_no; irq_enabled := false;
     suspended := false; esd_on := false;
     irq_requested := false; irq_depth := 0;
     esd_scheduled := false; hw_log := [] |}.

(** Modelled from the spec: the operations of the core controller and the
    periodic task of the ESD watchdog, which the header declares
    (goodix_ts_power_on, goodix_ts_power_off, goodix_ts_irq_setup,
    goodix_ts_irq_enable, goodix_ts_esd_init) or only names (suspend,
    resume); spec sections 4.4, 4.5 and 5. Every operation runs under the
    device lock, so it is one step here; it returns 0, the header's "ok". *)
Section controller.
Variable bdata : goodix_ts_board_data.
Variable reg : Regs.goodix_ts_regs.

(** Enable the analog supply at the configured load, wait
    power_on_delay_us; a call while already on is a no-op success. *)
Definition goodix_ts_power_on (s : goodix_ts_core) : Z * goodix_ts_core :=
  if power_on s then (0, s)
  else (0, set_power_on true
             (emit (Delay (power_on_delay_us bdata))
                (emit (RegulatorEnable (avdd_load bdata)) s))).

Definition goodix_ts_power_off (s : goodix_ts_core) : Z * goodix_ts_core :=
  if power_on s then
    (0, set_power_on false
          (emit (Delay (power_off_delay_us bdata))
             (emit RegulatorDisable s)))
  else (0, s).

(** Configure the trigger type from the board data, install the handler
    in the disabled state. *)
Definition goodix_ts_irq_setup (s : goodix_ts_core) : Z * goodix_ts_core :=
  (0, set_irq_enabled false
        (set_irq_line true 1
           (emit (RequestIrq (irq s) (irq_flags bdata)) s))).

(** Transition of the interrupt-enabled flag; enabling when enabled and
    disabling when disabled are no-op successes. *)
Definition goodix_ts_irq_enable (s : goodix_ts_core) (enable : bool)
  : Z * goodix_ts_core :=
  if enable then
    if irq_enabled s then (0, s)
    else (0, set_irq_enabled true
               (set_irq_line (irq_requested s) (irq_depth s - 1)
                  (emit (EnableIrq (irq s)) s)))
  else
    if irq_enabled s then
      (0, set_irq_enabled false
            (set_irq_line (irq_requested s) (irq_depth s + 1)
               (emit (DisableIrq (irq s)) s)))
    else (0, s).

Definition esd_pause (s : goodix_ts_core) : goodix_ts_core :=
  set_esd_scheduled false (emit EsdCancel s).

Definition esd_resume (s : goodix_ts_core) : goodix_ts_core :=
  set_esd_scheduled true (emit EsdSchedule s).

(** Disable interrupts, pause the watchdog, hardware suspend, suspend pin
    state, in that order; the controller is suspended from then on. *)
Definition goodix_ts_suspend (s : goodix_ts_core) : Z * goodix_ts_core :=
  let s := snd (goodix_ts_irq_enable s false) in
  let s := esd_pause s in
  let s := emit HwSuspend s in
  let s := emit PinSuspend s in
  (0, set_suspended true s).

(** The reverse order: restore pins, hardware resume, re-enable
    interrupts, resume the watchdog; the suspended flag is cleared before
    interrupts are enabled again. *)
Definition goodix_ts_resume (s : goodix_ts_core) : Z * goodix_ts_core :=
  let s := set_suspended false s in
  let s := emit PinActive s in
  let s := emit HwResume s in
  let s := snd (goodix_ts_irq_enable s true) in
  (0, esd_resume s).

(** The on/off state of the watchdog is seeded from esd_default_on. *)
Definition goodix_ts_esd_init (s : goodix_ts_core) : Z * goodix_ts_core :=
  let s := set_esd_on (esd_default_on bdata) s in
  (0, if esd_default_on bdata then esd_resume s else s).

(** The notifications ESD_OFF and ESD_ON toggle the watchdog. *)
Definition notify (e : ts_notify_event) (s : goodix_ts_core)
  : goodix_ts_core :=
  let s := emit (Notify e) s in
  match e with
  | NOTIFY_ESD_OFF => set_esd_on false s
  | NOTIFY_ESD_ON => set_esd_on true s
  | _ => s
  end.

(** One period of the watchdog's task. [alive] is the device's answer to
    the liveness probe. The task runs only while it is scheduled, and
    schedules its next period when the cycle is over. The ESD register is
    addressed through the register map. *)
Definition goodix_esd_work (alive : bool) (s : goodix_ts_core)
  : goodix_ts_core :=
  if esd_scheduled s then
    let s := set_esd_scheduled false s in
    let s :=
      if esd_on s && negb (suspended s) then
        match Regs.capability (Regs.esd reg) with
        | Some addr =>
            let s := emit (LivenessWrite addr GOODIX_ESD_TICK_WRITE_DATA) s in
            let s := emit CheckHw s in
            if alive then s
            else
              let s := notify NOTIFY_ESD_OFF s in
              let s := emit HwReset s in
              let s := emit HwInit s in
              let s := emit CheckHw s in
              notify NOTIFY_ESD_ON s
        | None => s
        end
      else s in
    esd_resume s
  else s.

(** The operations the platform, the display notifier and the timer can
    start, in any order. *)
Inductive op : Type :=
| PowerOn
| PowerOff
| IrqSetup
| IrqEnable (enable : bool)
| Suspend
| Resume
| EsdInit
| EsdWork (alive : bool).

Definition exec (o : op) (s : goodix_ts_core) : goodix_ts_core :=
  match o with
  | PowerOn => snd (goodix_ts_power_on s)
  | PowerOff => snd (goodix_ts_power_off s)
  | IrqSetup => snd (goodix_ts_irq_setup s)
  | IrqEnable b => snd (goodix_ts_irq_enable s b)
  | Suspend => snd (goodix_ts_suspend s)
  | Resume => snd (goodix_ts_resume s)
  | EsdInit => snd (goodix_ts_esd_init s)
  | EsdWork alive => goodix_esd_work alive s
  end.

(** The state after a sequence of operations, first one first. *)
Definition run (ops : list op) (s : goodix_ts_core) : goodix_ts_core :=
  foldl (fun s o => exec o s) s ops.

(** The operations the controller itself offers. *)
Definition controller_op (o : op) : bool :=
  match o with
  | PowerOn | PowerOff | IrqSetup | IrqEnable _ | Suspend | Resume => true
  | EsdInit | EsdWork _ => false
  end.

(** In a guarded sequence irq_enable(true) is not called while the
    controller is suspended. *)
Fixpoint guarded (ops : list op) (s : goodix_ts_core) : bool :=
  match ops with
  | [] => true
  | o :: ops' =>
      match o with
      | IrqEnable true => negb (suspended s)
      | _ => true
      end && guarded ops' (exec o s)
  end.

Definition is_liveness_write (e : hw_event) : bool :=
  match e with
  | LivenessWrite _ _ => true
  | _ => false
  end.
End controller.

Definition sample_board : goodix_ts_board_data :=
  {| avdd_load := 20000; irq_flags := 2; power_on_delay_us := 300;
     power_off_delay_us := 100; esd_default_on := true |}.

(** The two flags must not be true together. *)
Definition flags_exclusive (s : goodix_ts_core) : Prop :=
  ~ (suspended s = true /\ irq_enabled s = true).

(** No liveness write of a log was issued while suspended. *)
Definition log_ok (l : list (bool * hw_event)) : Prop :=
  Forall (fun '(susp, e) => is_liveness_write e = true -> susp = false) l.

(** A liveness write is the sentinel 0xAA to the ESD register of the map,
    which is not address 0. *)
Definition sentinel_write (reg : Regs.goodix_ts_regs) (e : hw_event) : Prop :=
  match e with
  | LivenessWrite addr data =>
      addr = Regs.esd reg /\ addr <> 0 /\ data = GOODIX_ESD_TICK_WRITE_DATA
  | _ => True
  end.

Definition log_sentinel (reg : Regs.goodix_ts_regs)
    (l : list (bool * hw_event)) : Prop :=
  Forall (fun '(_, e) => sentinel_write reg e) l.

(** What the operations keep of the log: no liveness write while
    suspended, and every liveness write the sentinel to the ESD register. *)
Definition log_inv (reg : Regs.goodix_ts_regs) (s : goodix_ts_core) : Prop :=
  log_ok (hw_log s) /\ log_sentinel reg (hw_log s).

End Core.

(** ** What the checksum helpers compute *)
Module ChecksumSpec.

(** The bytes of [l], which sit at the buffer offsets [i], [i + 1], ...,
    each weighted by the weight of its offset, and added up. *)
Fixpoint weighted_sum (w : Z -> Z) (i : Z) (l : list byte) : Z :=
  match l with
  | [] => 0
  | b :: l' => w i * u8_val b + weighted_sum w (i + 1) l'
  end.

(** The weight of the byte at offset [i] when the buffer is read as
    little-endian, respectively big-endian, words of [k] bytes. *)
Definition le_weight (k i : Z) : Z := 2 ^ (8 * (i mod k)).
Definition be_weight (k i : Z) : Z := 2 ^ (8 * (k - 1 - i mod k)).

(** The weights of checksum_u8_ys on [size] bytes: the body counts once,
    the two bytes of the trailing field are subtracted as a big-endian
    16-bit value. *)
Definition ys_weight (size i : Z) : Z :=
  if i <? size - 2 then 1 else if i =? size - 2 then -256 else -1.

(** [size] rounded up to a multiple of the stride. *)
Definition round_up (size stride : Z) : Z := Cmd.align_up size stride.

(** The buffer with the two bytes of every 16-bit word exchanged, and with
    the four bytes of every 32-bit word reversed. *)
Fixpoint swab16 (l : list byte) : list byte :=
  match l with
  | b0 :: b1 :: l' => b1 :: b0 :: swab16 l'
  | _ => l
  end.

Fixpoint swab32 (l : list byte) : list byte :=
  match l with
  | b0 :: b1 :: b2 :: b3 :: l' => b3 :: b2 :: b1 :: b0 :: swab32 l'
  | _ => l
  end.

(** A load of [k] bytes at an offset that is a multiple of [k] returns the
    weighted sum of its bytes. *)
Definition load_weighted (k : Z) (w : Z -> Z)
    (load : list byte -> Z -> option Z) : Prop :=
  forall data i, 0 <= i -> i mod k = 0 ->
    i + k <= Z.of_nat (length data) ->
    load data i
    = Some (weighted_sum w i (take (Z.to_nat k) (drop (Z.to_nat i) data))).

End ChecksumSpec.

(** ** The inline accessors of the core data *)
Module Accessors.

(** Pointers are options, NULL is [None]. struct goodix_ts_device with the
    members the accessors reach, and struct goodix_ts_core with its pointer
    to the device; [hw_ops_t] stands for struct goodix_ts_hw_ops. *)
Section accessors.
Variable hw_ops_t : Type.

Record goodix_ts_device : Type := {
  ic_type : Z;
  reg : Regs.goodix_ts_regs;
  dev_board_data : Core.goodix_ts_board_data;
  hw_ops : option hw_ops_t
}.

Record goodix_ts_core : Type := {
  initialized : Z;
  ts_dev : option goodix_ts_device
}.

(** [if (!core || !core->ts_dev) return NULL;]
    [return &(core->ts_dev->board_data);] *)
Definition board_data (core : option goodix_ts_core)
  : option Core.goodix_ts_board_data :=
  match core with
  | None => None
  | Some c =>
      match ts_dev c with
      | None => None
      | Some d => Some (dev_board_data d)
      end
  end.

(** [if (!core) return NULL;]
    [return core->ts_dev;] *)
Definition ts_device (core : option goodix_ts_core)
  : option goodix_ts_device :=
  match core with
  | None => None
  | Some c => ts_dev c
  end.

(** [if (!core || !core->ts_dev) return NULL;]
    [return core->ts_dev->hw_ops;] *)
Definition ts_hw_ops (core : option goodix_ts_core) : option hw_ops_t :=
  match core with
  | None => None
  | Some c =>
      match ts_dev c with
      | None => None
      | Some d => hw_ops d
      end
  end.
End accessors.

End Accessors.

(** * Properties *)

(** ** Machine integers and byte sums *)

Lemma u8_val_range (b : byte) : 0 <= u8_val b < 256.
Proof. unfold u8_val. pose proof (Byte.to_N_bounded b). lia. Qed.

Lemma u8_add_l (a b : Z) : u8 (u8 a + b) = u8 (a + b).
Proof. unfold u8. apply Zplus_mod_idemp_l. Qed.

Lemma u16_add_l (a b : Z) : u16 (u16 a + b) = u16 (a + b).
Proof. unfold u16. apply Zplus_mod_idemp_l. Qed.

Lemma u32_add_l (a b : Z) : u32 (u32 a + b) = u32 (a + b).
Proof. unfold u32. apply Zplus_mod_idemp_l. Qed.

Lemma u32_small (z : Z) : 0 <= z < 2 ^ 32 -> u32 z = z.
Proof. intros. unfold u32. apply Z.mod_small. lia. Qed.

Lemma sum_bytes_app (l1 l2 : list byte) :
  sum_bytes (l1 ++ l2) = sum_bytes l1 + sum_bytes l2.
Proof. induction l1 as [|b l1 IH]; simpl; [lia|]. rewrite IH. lia. Qed.

Lemma sum_bytes_nonneg (l : list byte) : 0 <= sum_bytes l.
Proof.
  induction l as [|b l IH]; simpl; [lia|].
  pose proof (u8_val_range b). lia.
Qed.

(** ** The checksum helpers *)
Module ChecksumFacts.
Import Checksum.

Example checksum_u8_ex : checksum_u8 [x01; xff; x03] 3 = Done 3.
Proof. reflexivity. Qed.

Example checksum_u8_ys_ex : checksum_u8_ys [x01; x02; x00; x03] 4 = Done 0.
Proof. reflexivity. Qed.

Example checksum_u8_ys_short : checksum_u8_ys [x01] 1 = Fault 1.
Proof. reflexivity. Qed.

Example checksum_le16_ex : checksum_le16 [x01; x02; x03; x04] 4 = Done 1540.
Proof. reflexivity. Qed.

Example checksum_le16_odd : checksum_le16 [x01; x02; x03] 3 = Fault 2.
Proof. reflexivity. Qed.

Example checksum_be32_ex :
  checksum_be32 [x00; x00; x01; x02; xff; xff; xff; xff] 8 = Done 257.
Proof. reflexivity. Qed.

(** *** The loads *)

Lemma read_u8_is_Some (data : list byte) (i : Z) :
  0 <= i -> is_Some (read_u8 data i) <-> i + 1 <= Z.of_nat (length data).
Proof.
  intros Hi. unfold read_u8. rewrite fmap_is_Some, lookup_lt_is_Some. lia.
Qed.

Lemma read_u8_Some (data : list byte) (i : Z) :
  0 <= i -> i < Z.of_nat (length data) -> exists v, read_u8 data i = Some v.
Proof.
  intros Hi Hlt. destruct (proj2 (read_u8_is_Some data i Hi)) as [v Hv]; [lia|].
  eauto.
Qed.

Lemma read_u8_None (data : list byte) (i : Z) :
  0 <= i -> Z.of_nat (length data) <= i -> read_u8 data i = None.
Proof.
  intros Hi Hge. destruct (read_u8 data i) eqn:E; [|done].
  assert (is_Some (read_u8 data i)) as Hs by (rewrite E; eauto).
  apply read_u8_is_Some in Hs; lia.
Qed.

Ltac load_cases data i :=
  let Hi := fresh "Hi" in
  intros data i Hi;
  repeat match goal with
  | |- context [read_u8 data ?j] =>
      lazymatch goal with
      | _ : read_u8 data j = _ |- _ => fail
      | _ => idtac
      end;
      let E := fresh "E" in
      destruct (read_u8 data j) eqn:E; simpl;
      [ assert (j + 1 <= Z.of_nat (length data))
          by (apply read_u8_is_Some; [lia | rewrite E; eauto])
      | assert (~ j + 1 <= Z.of_nat (length data))
          by (intros ?%read_u8_is_Some; [|lia];
              rewrite E in *; by eapply is_Some_None) ]
  end;
  split; intros Hs; try lia; try (by eauto); try (by destruct Hs).

Lemma read_u8_width : load_of_width 1 read_u8.
Proof. intros data i Hi. by apply read_u8_is_Some. Qed.

Lemma le16_to_cpup_width : load_of_width 2 le16_to_cpup.
Proof. unfold load_of_width, le16_to_cpup. load_cases data i. Qed.

Lemma be16_to_cpup_width : load_of_width 2 be16_to_cpup.
Proof. unfold load_of_width, be16_to_cpup. load_cases data i. Qed.

Lemma le32_to_cpup_width : load_of_width 4 le32_to_cpup.
Proof. unfold load_of_width, le32_to_cpup. load_cases data i. Qed.

Lemma be32_to_cpup_width : load_of_width 4 be32_to_cpup.
Proof. unfold load_of_width, be32_to_cpup. load_cases data i. Qed.

(** *** The loop *)
Section sum_loop_facts.
Variable wrap : Z -> Z.
Variable stride : Z.
Variable load : list byte -> Z -> option Z.
Hypothesis wrap_add_l : forall a b, wrap (wrap a + b) = wrap (a + b).
Hypothesis stride_pos : 1 <= stride.
Hypothesis load_width : load_of_width stride load.

Lemma wrap_idemp (a : Z) : wrap (wrap a) = wrap a.
Proof.
  transitivity (wrap (wrap a + 0)); [by rewrite Z.add_0_r|].
  by rewrite wrap_add_l, Z.add_0_r.
Qed.

(** While the loads stay inside the buffer the loop runs to its bound and
    returns the truncated sum of the loads. *)
Lemma sum_loop_done (m : nat) :
  forall (fuel : nat) (data : list byte) (i c : Z),
    0 <= i ->
    i + stride * Z.of_nat m <= Z.of_nat (length data) ->
    i + stride * Z.of_nat m < 2 ^ 32 ->
    (m < fuel)%nat ->
    wrap c = c ->
    sum_loop wrap stride load fuel data (i + stride * Z.of_nat m) i c
    = Done (wrap (c + loads_sum stride load m data i)).
Proof.
  induction m as [|m IH]; intros fuel data i c Hi Hlen H32 Hfuel Hc;
    (destruct fuel as [|fuel]; [lia|]); simpl sum_loop; simpl loads_sum.
  - replace (i + stride * Z.of_nat 0) with i by lia.
    rewrite Z.ltb_irrefl. by rewrite Z.add_0_r, Hc.
  - destruct (Z.ltb_spec i (i + stride * Z.of_nat (S m))) as [_|?]; [|nia].
    destruct (proj2 (load_width data i Hi)) as [v Hv]; [nia|].
    rewrite Hv. simpl.
    rewrite (u32_small (i + stride)) by nia.
    replace (i + stride * Z.of_nat (S m))
      with (i + stride + stride * Z.of_nat m) by lia.
    rewrite IH; [|lia|lia|lia|lia|apply wrap_idemp].
    by rewrite wrap_add_l, Z.add_assoc.
Qed.

(** The first load that does not fit the buffer, met before the bound,
    is a fault. *)
Lemma sum_loop_fault (m : nat) :
  forall (fuel : nat) (data : list byte) (bound i c : Z),
    0 <= i ->
    i + stride * Z.of_nat m <= Z.of_nat (length data) ->
    Z.of_nat (length data) < i + stride * Z.of_nat m + stride ->
    i + stride * Z.of_nat m < bound ->
    Z.of_nat (length data) < 2 ^ 32 ->
    (m < fuel)%nat ->
    sum_loop wrap stride load fuel data bound i c
    = Fault (i + stride * Z.of_nat m).
Proof.
  induction m as [|m IH]; intros fuel data bound i c Hi Hle Hgt Hb H32 Hfuel;
    (destruct fuel as [|fuel]; [lia|]); simpl sum_loop.
  - replace (i + stride * Z.of_nat 0) with i in * by lia.
    destruct (Z.ltb_spec i bound) as [_|?]; [|lia].
    destruct (load data i) eqn:E.
    + assert (is_Some (load data i)) as Hs by (rewrite E; eauto).
      apply load_width in Hs; lia.
    + done.
  - destruct (Z.ltb_spec i bound) as [_|?]; [|nia].
    destruct (proj2 (load_width data i Hi)) as [v Hv]; [nia|].
    rewrite Hv.
    rewrite (u32_small (i + stride)) by nia.
    rewrite (IH fuel data bound (i + stride)); [|lia|lia|lia|lia|lia|lia].
    f_equal. lia.
Qed.

(** The loop is never cut off on a buffer a u32 counter can run over. *)
Lemma sum_loop_no_timeout (fuel : nat) :
  forall (data : list byte) (bound i c : Z),
    0 <= i ->
    Z.of_nat (length data) < 2 ^ 32 ->
    (1 <= fuel)%nat ->
    Z.of_nat (length data) - i <= (Z.of_nat fuel - 1) * stride ->
    sum_loop wrap stride load fuel data bound i c <> Timeout.
Proof.
  induction fuel as [|fuel IH]; intros data bound i c Hi H32 Hf Hfuel; [lia|].
  simpl. destruct (i <? bound); [|done].
  destruct (load data i) eqn:E; [|done].
  assert (is_Some (load data i)) as Hs by (rewrite E; eauto).
  apply load_width in Hs; [|done].
  rewrite (u32_small (i + stride)) by lia.
  apply IH; nia.
Qed.

(** More fuel does not change a result. *)
Lemma sum_loop_fuel_mono (fuel : nat) :
  forall (fuel' : nat) (data : list byte) (bound i c : Z),
    (fuel <= fuel')%nat ->
    sum_loop wrap stride load fuel data bound i c <> Timeout ->
    sum_loop wrap stride load fuel' data bound i c
    = sum_loop wrap stride load fuel data bound i c.
Proof.
  induction fuel as [|fuel IH]; intros fuel' data bound i c Hle Hr; [done|].
  destruct fuel' as [|fuel']; [lia|]. simpl in *.
  destruct (i <? bound); [|done].
  destruct (load data i); [|done].
  apply IH; [lia|done].
Qed.

(** A buffer of exactly [size] bytes, summed from its start: the loop
    stays inside it when [size] is a multiple of the stride, and leaves it
    at the last, partial element when it is not. *)
Lemma sum_loop_whole_buffer (data : list byte) (size : Z) :
  wrap 0 = 0 ->
  Z.of_nat (length data) = size -> size < 2 ^ 32 ->
  (size mod stride = 0 ->
     sum_loop wrap stride load (fuel_for data) data size 0 0
     = Done (wrap (loads_sum stride load (Z.to_nat (size / stride)) data 0)))
  /\ (size mod stride <> 0 ->
     sum_loop wrap stride load (fuel_for data) data size 0 0
     = Fault (stride * (size / stride))).
Proof.
  intros Hw0 Hlen H32.
  assert (0 <= size) by lia.
  pose proof (Z.div_mod size stride ltac:(lia)) as Hdm.
  pose proof (Z.mod_pos_bound size stride ltac:(lia)) as Hmod.
  assert (0 <= size / stride) by (apply Z.div_pos; lia).
  assert (size / stride <= size) by nia.
  split; intros Hr.
  - pose proof (sum_loop_done (Z.to_nat (size / stride)) (fuel_for data)
                  data 0 0) as Hd.
    rewrite Z2Nat.id in Hd by lia.
    replace (0 + stride * (size / stride)) with size in Hd by lia.
    rewrite Hd; [done|lia|lia|lia|unfold fuel_for; lia|done].
  - pose proof (sum_loop_fault (Z.to_nat (size / stride)) (fuel_for data)
                  data size 0 0) as Hf.
    rewrite Z2Nat.id in Hf by lia.
    rewrite Hf; [f_equal; lia|lia|lia|lia|lia|lia|unfold fuel_for; lia].
Qed.
End sum_loop_facts.

Lemma u8_0 : u8 0 = 0.
Proof. reflexivity. Qed.
Lemma u16_0 : u16 0 = 0.
Proof. reflexivity. Qed.
Lemma u32_0 : u32 0 = 0.
Proof. reflexivity. Qed.

(** The byte loads add up to the sum of the bytes they run over. *)
Lemma loads_sum_read_u8 (m : nat) :
  forall (data : list byte) (i : Z),
    0 <= i ->
    loads_sum 1 read_u8 m data i
    = sum_bytes (take m (drop (Z.to_nat i) data)).
Proof.
  induction m as [|m IH]; intros data i Hi; simpl loads_sum.
  - by rewrite take_0.
  - rewrite IH by lia. replace (Z.to_nat (i + 1)) with (S (Z.to_nat i)) by lia.
    unfold read_u8. destruct (data !! Z.to_nat i) as [b|] eqn:E; simpl.
    + by rewrite (drop_S _ _ _ E).
    + apply lookup_ge_None in E.
      rewrite !drop_ge by lia. by rewrite !take_nil.
Qed.

(** [hi << 8 | lo] is the big-endian value of two bytes. *)
Lemma lor_shiftl_small (a b n : Z) :
  0 <= n -> 0 <= b < 2 ^ n -> Z.lor (Z.shiftl a n) b = a * 2 ^ n + b.
Proof.
  intros Hn Hb.
  assert (Z.land (Z.shiftl a n) b = 0) as Hland.
  { apply Z.bits_inj'. intros m Hm.
    rewrite Z.land_spec, Z.bits_0.
    destruct (Z.lt_ge_cases m n) as [Hlt|Hge].
    - by rewrite Z.shiftl_spec_low.
    - rewrite <- (Z.mod_small b (2 ^ n)) by lia.
      rewrite Z.mod_pow2_bits_high by lia. apply andb_false_r. }
  rewrite <- Z.lxor_lor, <- Z.add_nocarry_lxor by done.
  by rewrite Z.shiftl_mul_pow2.
Qed.

(** What checksum_u8 returns on the first [size] bytes of a buffer. *)
Lemma checksum_u8_take (data : list byte) (size : Z) :
  0 <= size < 2 ^ 32 -> size <= Z.of_nat (length data) ->
  checksum_u8 data size
  = Done (sum_bytes (take (Z.to_nat size) data) mod 2 ^ 8).
Proof.
  intros Hs Hle. unfold checksum_u8.
  pose proof (sum_loop_done u8 1 read_u8 u8_add_l ltac:(lia) read_u8_width
                (Z.to_nat size) (fuel_for data) data 0 0) as Hd.
  rewrite Z2Nat.id in Hd by lia.
  replace (0 + 1 * size) with size in Hd by lia.
  rewrite Hd; [|lia|lia|lia|unfold fuel_for; lia|done].
  rewrite loads_sum_read_u8 by lia. simpl (Z.to_nat 0). by rewrite drop_0.
Qed.

Lemma checksum_u8_whole (data : list byte) :
  Z.of_nat (length data) < 2 ^ 32 ->
  checksum_u8 data (Z.of_nat (length data)) = Done (u8 (sum_bytes data)).
Proof.
  intros H32. rewrite checksum_u8_take by lia.
  by rewrite Nat2Z.id, firstn_all.
Qed.

(** What checksum_u8_ys returns when its [size] bytes are inside the buffer:
    the sum of the first [size - 2] bytes minus the big-endian value of the
    last two, truncated to 16 bits. *)
Lemma checksum_u8_ys_value (data : list byte) (size : Z) (hi lo : byte) :
  2 <= size < 2 ^ 32 -> size <= Z.of_nat (length data) ->
  data !! Z.to_nat (size - 2) = Some hi ->
  data !! Z.to_nat (size - 1) = Some lo ->
  checksum_u8_ys data size
  = Done (u16 (sum_bytes (take (Z.to_nat (size - 2)) data)
               - (256 * u8_val hi + u8_val lo))).
Proof.
  intros Hs Hle Hhi Hlo. unfold checksum_u8_ys.
  rewrite !u32_small by lia.
  pose proof (sum_loop_done u16 1 read_u8 u16_add_l ltac:(lia) read_u8_width
                (Z.to_nat (size - 2)) (fuel_for data) data 0 0) as Hd.
  rewrite Z2Nat.id in Hd by lia.
  replace (0 + 1 * (size - 2)) with (size - 2) in Hd by lia.
  rewrite Hd; [|lia|lia|lia|unfold fuel_for; lia|done].
  rewrite loads_sum_read_u8 by lia. simpl (Z.to_nat 0). rewrite drop_0.
  unfold read_u8. rewrite Hhi, Hlo. simpl.
  pose proof (u8_val_range hi). pose proof (u8_val_range lo).
  rewrite (lor_shiftl_small (u8_val hi) (u8_val lo) 8) by lia.
  f_equal. unfold u16.
  rewrite Zminus_mod_idemp_l. f_equal. lia.
Qed.

(** The two bytes of the trailing field are there when [size] bytes are. *)
Lemma trailing_field (data : list byte) (size : Z) :
  2 <= size -> size <= Z.of_nat (length data) ->
  exists hi lo,
    data !! Z.to_nat (size - 2) = Some hi /\
    data !! Z.to_nat (size - 1) = Some lo.
Proof.
  intros Hs Hle.
  destruct (lookup_lt_is_Some_2 data (Z.to_nat (size - 2))) as [hi Hhi]; [lia|].
  destruct (lookup_lt_is_Some_2 data (Z.to_nat (size - 1))) as [lo Hlo]; [lia|].
  eauto.
Qed.

(** C1. For every buffer of [size >= 2] bytes whose trailing 16-bit
    big-endian field, the bytes [data[size-2]] and [data[size-1]], equals the
    sum of the [size - 2] bytes before it, checksum_u8_ys returns 0. *)
Theorem checksum_u8_ys_zero (data : list byte) (size : Z) (hi lo : byte) :
  2 <= size < 2 ^ 32 -> size <= Z.of_nat (length data) ->
  data !! Z.to_nat (size - 2) = Some hi ->
  data !! Z.to_nat (size - 1) = Some lo ->
  256 * u8_val hi + u8_val lo = sum_bytes (take (Z.to_nat (size - 2)) data) ->
  checksum_u8_ys data size = Done 0.
Proof.
  intros Hs Hle Hhi Hlo Hsum.
  rewrite (checksum_u8_ys_value data size hi lo) by done.
  by rewrite Hsum, Z.sub_diag.
Qed.

Lemma checksum_u8_ys_zero_witness :
  checksum_u8_ys [x01; x02; x00; x03] 4 = Done 0.
Proof.
  apply (checksum_u8_ys_zero [x01; x02; x00; x03] 4 x00 x03);
    [lia | simpl; lia | reflexivity | reflexivity | reflexivity].
Defined.

(** X18. The field need only agree with the sum modulo 2^16, and then
    only: checksum_u8_ys returns 0 exactly when the trailing big-endian
    field is the sum of the bytes before it modulo 2^16. *)
Lemma checksum_u8_ys_zero_iff (data : list byte) (size : Z) (hi lo : byte) :
  2 <= size < 2 ^ 32 -> size <= Z.of_nat (length data) ->
  data !! Z.to_nat (size - 2) = Some hi ->
  data !! Z.to_nat (size - 1) = Some lo ->
  checksum_u8_ys data size = Done 0 <->
  u16 (sum_bytes (take (Z.to_nat (size - 2)) data))
  = 256 * u8_val hi + u8_val lo.
Proof.
  intros Hs Hle Hhi Hlo.
  rewrite (checksum_u8_ys_value data size hi lo) by (done || lia).
  pose proof (u8_val_range hi). pose proof (u8_val_range lo).
  unfold u16. split.
  - intros [= Hz]. revert Hz.
    generalize (sum_bytes (take (Z.to_nat (size - 2)) data)). intros z Hz.
    change (2 ^ 16) with 65536 in *.
    apply Z.mod_divide in Hz; [|lia]. destruct Hz as [k Hk].
    replace z with ((256 * u8_val hi + u8_val lo) + k * 65536) by lia.
    rewrite Z.mod_add by lia. apply Z.mod_small. lia.
  - intros Hz. f_equal.
    rewrite <- Hz, Zminus_mod_idemp_r. by rewrite Z.sub_diag.
Qed.

(** C2. checksum_u8 is the sum of the [size] input bytes modulo 256, and
    the checksum of a concatenation is the sum modulo 256 of the checksums
    of its parts, however the bytes are grouped. *)
Theorem checksum_u8_additive_fold (data : list byte) (size : Z) :
  0 <= size < 2 ^ 32 -> size <= Z.of_nat (length data) ->
  checksum_u8 data size
  = Done (sum_bytes (take (Z.to_nat size) data) mod 256)
  /\ forall l1 l2 : list byte,
      take (Z.to_nat size) data = l1 ++ l2 ->
      exists c1 c2,
        checksum_u8 l1 (Z.of_nat (length l1)) = Done c1 /\
        checksum_u8 l2 (Z.of_nat (length l2)) = Done c2 /\
        checksum_u8 data size = Done ((c1 + c2) mod 256).
Proof.
  intros Hs Hle. split; [by apply checksum_u8_take|].
  intros l1 l2 Heq.
  assert (length l1 + length l2 = Z.to_nat size)%nat as Hlen.
  { rewrite <- length_app, <- Heq, length_take. lia. }
  exists (u8 (sum_bytes l1)), (u8 (sum_bytes l2)).
  rewrite !checksum_u8_whole by lia.
  rewrite checksum_u8_take, Heq, sum_bytes_app by lia.
  split; [done|]. split; [done|]. f_equal.
  unfold u8. change (2 ^ 8) with 256. by rewrite <- Zplus_mod.
Qed.

Lemma checksum_u8_additive_fold_witness :
  checksum_u8 [x01; xff; x03] 3 = Done 3.
Proof.
  destruct (checksum_u8_additive_fold [x01; xff; x03] 3) as [H _];
    [lia | simpl; lia | exact H].
Defined.

(** C5. On a buffer of [size] bytes checksum_u8_ys reads inside the buffer
    exactly when [size >= 2]: from 2 on it returns, below 2 the u32
    [size - 2] wraps around and a read leaves the buffer. *)
Theorem checksum_u8_ys_in_bounds_iff (data : list byte) (size : Z) :
  Z.of_nat (length data) = size -> size < 2 ^ 32 ->
  (2 <= size <-> exists v, checksum_u8_ys data size = Done v) /\
  (size < 2 <-> exists i, checksum_u8_ys data size = Fault i).
Proof.
  intros Hlen H32.
  destruct (Z.le_gt_cases 2 size) as [Hge|Hlt].
  - destruct (trailing_field data size) as (hi & lo & Hhi & Hlo); [lia|lia|].
    rewrite (checksum_u8_ys_value data size hi lo) by (done || lia).
    split; split; intros H; try lia; eauto.
    by destruct H.
  - assert (checksum_u8_ys data size = Fault size) as ->.
    { unfold checksum_u8_ys.
      assert (u32 (size - 2) = 2 ^ 32 + size - 2) as ->.
      { unfold u32. replace (size - 2) with (2 ^ 32 + size - 2 + (-1) * 2 ^ 32) by lia.
        rewrite Z.mod_add by lia. apply Z.mod_small. lia. }
      pose proof (sum_loop_fault u16 1 read_u8 ltac:(lia) read_u8_width
                    (Z.to_nat size) (fuel_for data) data
                    (2 ^ 32 + size - 2) 0 0) as Hf.
      rewrite Z2Nat.id in Hf by lia.
      rewrite Hf; [f_equal; lia|lia|lia|lia|lia|lia|unfold fuel_for; lia]. }
    split; split; intros H; try lia; eauto.
    by destruct H.
Qed.

Lemma checksum_u8_ys_in_bounds_iff_witness :
  (2 <= 1 <-> exists v, checksum_u8_ys [x07] 1 = Done v) /\
  (1 < 2 <-> exists i, checksum_u8_ys [x07] 1 = Fault i).
Proof.
  apply (checksum_u8_ys_in_bounds_iff [x07] 1); [reflexivity | lia].
Defined.

(** C6. On a buffer of [size] bytes each strided helper reads inside the
    buffer exactly when [size] is a multiple of its stride: checksum_le16
    and checksum_be16 for even [size], checksum_le32 and checksum_be32 for
    [size] a multiple of 4; otherwise the last load leaves the buffer. *)
Theorem strided_checksums_in_bounds_iff (data : list byte) (size : Z) :
  Z.of_nat (length data) = size -> size < 2 ^ 32 ->
  ((size mod 2 = 0 <-> exists v, checksum_le16 data size = Done v) /\
   (size mod 2 <> 0 <-> exists i, checksum_le16 data size = Fault i)) /\
  ((size mod 2 = 0 <-> exists v, checksum_be16 data size = Done v) /\
   (size mod 2 <> 0 <-> exists i, checksum_be16 data size = Fault i)) /\
  ((size mod 4 = 0 <-> exists v, checksum_le32 data size = Done v) /\
   (size mod 4 <> 0 <-> exists i, checksum_le32 data size = Fault i)) /\
  ((size mod 4 = 0 <-> exists v, checksum_be32 data size = Done v) /\
   (size mod 4 <> 0 <-> exists i, checksum_be32 data size = Fault i)).
Proof.
  intros Hlen H32.
  assert (forall wrap stride load,
    (forall a b, wrap (wrap a + b) = wrap (a + b)) -> 1 <= stride ->
    load_of_width stride load -> wrap 0 = 0 ->
    (size mod stride = 0 <->
       exists v, sum_loop wrap stride load (fuel_for data) data size 0 0 = Done v) /\
    (size mod stride <> 0 <->
       exists i, sum_loop wrap stride load (fuel_for data) data size 0 0 = Fault i))
    as Hall.
  { intros wrap stride load Hw Hst Hld Hw0.
    destruct (sum_loop_whole_buffer wrap stride load Hw Hst Hld data size
                Hw0 Hlen H32) as [Hdone Hfault].
    destruct (Z.eq_dec (size mod stride) 0) as [Hz|Hnz].
    - rewrite (Hdone Hz). split; split; intros H; try done; eauto.
      by destruct H.
    - rewrite (Hfault Hnz). split; split; intros H; try done; eauto.
      by destruct H. }
  repeat split;
    first [ apply (Hall u16 2 le16_to_cpup u16_add_l ltac:(lia) le16_to_cpup_width u16_0)
          | apply (Hall u16 2 be16_to_cpup u16_add_l ltac:(lia) be16_to_cpup_width u16_0)
          | apply (Hall u32 4 le32_to_cpup u32_add_l ltac:(lia) le32_to_cpup_width u32_0)
          | apply (Hall u32 4 be32_to_cpup u32_add_l ltac:(lia) be32_to_cpup_width u32_0) ].
Qed.

Lemma strided_checksums_in_bounds_iff_witness :
  (exists v, checksum_le16 [x01; x02; x03; x04] 4 = Done v) /\
  (exists i, checksum_be32 [x01; x02; x03; x04; x05; x06] 6 = Fault i).
Proof.
  destruct (strided_checksums_in_bounds_iff [x01; x02; x03; x04] 4)
    as ((Hle16 & _) & _); [reflexivity | lia |].
  destruct (strided_checksums_in_bounds_iff [x01; x02; x03; x04; x05; x06] 6)
    as (_ & _ & _ & (_ & Hbe32)); [reflexivity | lia |].
  split; [apply Hle16; reflexivity | apply Hbe32; discriminate].
Defined.

(** The helpers are never cut off on a buffer a u32 can index: they return
    or fault. *)
Lemma checksums_no_timeout (data : list byte) (size : Z) :
  Z.of_nat (length data) < 2 ^ 32 ->
  checksum_u8 data size <> Timeout /\
  checksum_u8_ys data size <> Timeout /\
  checksum_le16 data size <> Timeout /\
  checksum_be16 data size <> Timeout /\
  checksum_le32 data size <> Timeout /\
  checksum_be32 data size <> Timeout.
Proof.
  intros H32.
  assert (forall wrap stride load bound,
            1 <= stride -> load_of_width stride load ->
            sum_loop wrap stride load (fuel_for data) data bound 0 0 <> Timeout)
    as Hall.
  { intros wrap stride load bound Hst Hld.
    apply sum_loop_no_timeout; unfold fuel_for; try done; nia. }
  repeat split; try (apply Hall; [lia|]);
    auto using read_u8_width, le16_to_cpup_width, be16_to_cpup_width,
      le32_to_cpup_width, be32_to_cpup_width.
  unfold checksum_u8_ys.
  pose proof (Hall u16 1 read_u8 (u32 (size - 2)) ltac:(lia) read_u8_width).
  destruct (sum_loop u16 1 read_u8 (fuel_for data) data (u32 (size - 2)) 0 0);
    [|done|done].
  by destruct (read_u8 data (u32 (size - 2))), (read_u8 data (u32 (size - 1))).
Qed.

End ChecksumFacts.


(** ** The command package *)
Module CmdFacts.
Import Cmd.

Lemma goodix_ts_cmd_offsets :
  offsets goodix_ts_cmd_pack goodix_ts_cmd_members = [0; 4; 8; 12].
Proof. reflexivity. Qed.

Lemma goodix_ts_cmd_size :
  struct_size goodix_ts_cmd_pack goodix_ts_cmd_members = 20.
Proof. reflexivity. Qed.

(** Packing matters from a member on that is wider than the pack: with
    [#pragma pack(1)] a u32 after a u8 sits at offset 1, without packing at 4. *)
Example pack_1_vs_natural :
  offsets 1 [U8; U32] = [0; 1] /\ offsets 8 [U8; U32] = [0; 4].
Proof. split; reflexivity. Qed.

Lemma u8_val_byte_of_Z (z : Z) : u8_val (byte_of_Z z) = z mod 256.
Proof.
  unfold byte_of_Z, u8_val.
  pose proof (Z.mod_pos_bound z 256 ltac:(lia)) as Hm.
  pose proof (Byte.to_of_N_option_map (Z.to_N (z mod 256))) as Ho.
  destruct (N.leb_spec (Z.to_N (z mod 256)) 255) as [_|?]; [|lia].
  destruct (Byte.of_N (Z.to_N (z mod 256))) as [b|]; [|done].
  simpl in *. injection Ho as ->. lia.
Qed.

Lemma le32_value_bytes (z : Z) :
  0 <= z < 2 ^ 32 -> le32_value (le32_bytes z) = z.
Proof.
  intros Hz. unfold le32_value, le32_bytes. simpl.
  rewrite !u8_val_byte_of_Z, !Z.shiftr_div_pow2 by lia.
  change (2 ^ 8) with 256. change (2 ^ 16) with 65536.
  change (2 ^ 24) with 16777216. change (2 ^ 32) with 4294967296 in Hz.
  Z.div_mod_to_equations. lia.
Qed.

(** The image of a struct value is its members in declaration order, with
    no padding between them. *)
Lemma image_members (c : goodix_ts_cmd) :
  List.length (cmds c) = 8%nat ->
  image c
  = le32_bytes (initialized c) ++ le32_bytes (cmd_reg c)
    ++ le32_bytes (length c) ++ cmds c.
Proof.
  destruct c as [i r l cs]. simpl. intros Hlen.
  do 9 (destruct cs as [|? cs]; [try discriminate Hlen|]);
    [reflexivity | discriminate Hlen].
Qed.



End CmdFacts.

(** ** The event decoder *)
Module DecoderFacts.
Import Decoder.

Section decoder_facts.
Variable touch_count : list byte -> Z.
Variable read_point : list byte -> Z -> goodix_ts_coords.
Variable read_pen : list byte -> option goodix_pen_data.
Variable checksum_ok : list byte -> bool.

Lemma store_coords_length (i : Z) (c : goodix_ts_coords)
    (td td' : goodix_touch_data) :
  store_coords i c td = Some td' ->
  List.length (coords td') = List.length (coords td).
Proof.
  unfold store_coords.
  destruct (_ && _); [|done]. intros [= <-]. simpl. apply length_insert.
Qed.

(** Reading [n] points from [i] on stays inside an array that holds
    [i + n] entries, and accesses exactly the entries [i .. i + n - 1]. *)
Lemma read_points_in_bounds (n : nat) :
  forall (payload : list byte) (i : Z) (td : goodix_touch_data)
         (accessed : list Z),
    0 <= i ->
    i + Z.of_nat n <= Z.of_nat (List.length (coords td)) ->
    exists td',
      read_points read_point n payload i td accessed
      = (inl td', accessed ++ ((fun k => i + Z.of_nat k) <$> seq 0 n)).
Proof.
  induction n as [|n IH]; intros payload i td accessed Hi Hle; simpl.
  - exists td. by rewrite app_nil_r.
  - unfold store_coords at 1.
    destruct (Z.leb_spec 0 i) as [_|?]; [|lia].
    destruct (Z.ltb_spec i (Z.of_nat (List.length (coords td)))) as [_|?]; [|lia].
    simpl.
    edestruct (IH payload (i + 1)) as [td' ->]; [lia|simpl; rewrite length_insert; lia|].
    exists td'. f_equal. rewrite <- app_assoc. f_equal. simpl.
    rewrite Z.add_0_r. f_equal.
    rewrite <- fmap_S_seq, <- list_fmap_compose.
    apply list_fmap_ext. intros _ k _. simpl. lia.
Qed.

(** C3. A status byte with the Touch bit (0x80) set and a declared
    touch-count above GOODIX_MAX_TOUCH, 11 for one, is rejected as a decode
    failure, and no entry of the 10-element coordinate array has been
    accessed by then. *)
Theorem excess_touch_count_rejected (status : Z) (payload : list byte) :
  Z.land status GOODIX_TOUCH_EVENT <> 0 ->
  GOODIX_MAX_TOUCH < touch_count payload ->
  decode_event touch_count read_point read_pen checksum_ok status payload
  = (Rejected DecodeFailure, []).
Proof.
  intros Hbit Hcount. unfold decode_event, has_bit.
  destruct (Z.eqb_spec (Z.land status GOODIX_TOUCH_EVENT) 0) as [?|_]; [done|].
  simpl negb. cbv iota.
  destruct (Z.gtb_spec (touch_count payload) GOODIX_MAX_TOUCH) as [_|?]; [done|lia].
Qed.

(** Whatever the payload declares, the decoder never leaves the coordinate
    array: every index it accesses is one of 0 .. 9. *)
Lemma decode_event_in_bounds (status : Z) (payload : list byte) :
  (forall i,
     fst (decode_event touch_count read_point read_pen checksum_ok
            status payload) <> OutOfBounds i) /\
  Forall (fun i => 0 <= i < GOODIX_MAX_TOUCH)
    (snd (decode_event touch_count read_point read_pen checksum_ok
            status payload)).
Proof.
  unfold decode_event.
  destruct (has_bit status GOODIX_TOUCH_EVENT).
  - destruct (Z.gtb_spec (touch_count payload) GOODIX_MAX_TOUCH) as [?|Hle].
    + simpl. split; [done|constructor].
    + edestruct (read_points_in_bounds (Z.to_nat (touch_count payload))
                   payload 0) as [td' ->]; [lia|simpl; unfold GOODIX_MAX_TOUCH in *; lia|].
      destruct (read_pen payload), (checksum_ok payload); simpl;
        (split; [done|]);
        apply Forall_fmap, Forall_forall; intros k Hk%in_seq; simpl;
        unfold GOODIX_MAX_TOUCH in *; lia.
  - destruct (read_pen payload), (checksum_ok payload); simpl;
      (split; [done|constructor]).
Qed.
End decoder_facts.

Example decode_two_points :
  sample_decode 0x80
    [x02; x02; x0a; x14; x01; x01; x02; x1e; x28; x01; x01; x92]
  = (Event {| event_type := EVENT_TOUCH;
              touch_data :=
                {| touch_num := 2;
                   coords :=
                     [ {| status := TS_TOUCH; x := 10; y := 20; w := 1; p := 1 |};
                       {| status := TS_TOUCH; x := 30; y := 40; w := 1; p := 1 |} ]
                     ++ replicate 8 no_coords;
                   keys := replicate 4 no_key |};
              pen_data := no_pen |},
     [0; 1]).
Proof. reflexivity. Qed.

Example decode_bad_checksum :
  sample_decode 0x80
    [x02; x02; x0a; x14; x01; x01; x02; x1e; x28; x01; x01; x93]
  = (Rejected ChecksumMismatch, [0; 1]).
Proof. reflexivity. Qed.

Lemma excess_touch_count_rejected_witness :
  sample_decode 0x80 [x0b; x00] = (Rejected DecodeFailure, []).
Proof.
  apply (excess_touch_count_rejected sample_touch_count sample_read_point
           (fun _ => None) sample_checksum_ok 0x80 [x0b; x00]).
  - discriminate.
  - reflexivity.
Defined.

End DecoderFacts.

(** ** The core controller and the ESD watchdog *)
Module CoreFacts.
Import Core.

Section controller_facts.
Variable bdata : goodix_ts_board_data.
Variable reg : Regs.goodix_ts_regs.

(** *** irq_enable *)

Lemma irq_enable_noop (s : goodix_ts_core) (enable : bool) :
  irq_enabled s = enable -> goodix_ts_irq_enable s enable = (0, s).
Proof.
  intros <-. unfold goodix_ts_irq_enable. by destruct (irq_enabled s).
Qed.

(** C9. goodix_ts_irq_enable is idempotent in both directions: a call that
    asks for the value the interrupt-enabled flag already has returns
    success, leaves the flag and the whole state unchanged, and asks
    nothing of the interrupt controller: the disable depth of the line and
    the log of enable/disable calls are what they were. *)
Theorem irq_enable_idempotent (s : goodix_ts_core) (enable : bool) :
  irq_enabled s = enable ->
  goodix_ts_irq_enable s enable = (0, s) /\
  irq_enabled (snd (goodix_ts_irq_enable s enable)) = irq_enabled s /\
  irq_depth (snd (goodix_ts_irq_enable s enable)) = irq_depth s /\
  hw_log (snd (goodix_ts_irq_enable s enable)) = hw_log s.
Proof.
  intros H. by rewrite (irq_enable_noop s enable H).
Qed.

Lemma irq_enable_sets_flag (s : goodix_ts_core) (enable : bool) :
  fst (goodix_ts_irq_enable s enable) = 0 /\
  irq_enabled (snd (goodix_ts_irq_enable s enable)) = enable.
Proof.
  unfold goodix_ts_irq_enable.
  by destruct enable, (irq_enabled s) eqn:E.
Qed.

(** Called twice in a row, the second call changes nothing. *)
Lemma irq_enable_twice (s : goodix_ts_core) (enable : bool) :
  let s1 := snd (goodix_ts_irq_enable s enable) in
  goodix_ts_irq_enable s1 enable = (0, s1).
Proof.
  intros s1. apply irq_enable_noop. apply irq_enable_sets_flag.
Qed.

(** A call that changes the flag moves the disable depth by one. *)
Lemma irq_enable_depth (s : goodix_ts_core) (enable : bool) :
  irq_enabled s = negb enable ->
  irq_depth (snd (goodix_ts_irq_enable s enable))
  = irq_depth s + (if enable then -1 else 1).
Proof.
  intros H. unfold goodix_ts_irq_enable. rewrite H. by destruct enable.
Qed.

(** *** The two flags *)

Lemma suspend_flags (s : goodix_ts_core) :
  suspended (snd (goodix_ts_suspend s)) = true /\
  irq_enabled (snd (goodix_ts_suspend s)) = false.
Proof.
  unfold goodix_ts_suspend, goodix_ts_irq_enable.
  by destruct (irq_enabled s) eqn:E.
Qed.

Lemma resume_flags (s : goodix_ts_core) :
  suspended (snd (goodix_ts_resume s)) = false /\
  irq_enabled (snd (goodix_ts_resume s)) = true.
Proof.
  unfold goodix_ts_resume, goodix_ts_irq_enable. simpl.
  by destruct (irq_enabled s) eqn:E.
Qed.

Lemma esd_work_flags (alive : bool) (s : goodix_ts_core) :
  suspended (goodix_esd_work reg alive s) = suspended s /\
  irq_enabled (goodix_esd_work reg alive s) = irq_enabled s.
Proof.
  unfold goodix_esd_work, Regs.capability.
  by destruct s as [? ? ? [] [] ? ? [] ?], alive, (Regs.esd reg =? 0).
Qed.

(** Only suspend and resume write the suspended flag. *)
Lemma suspended_writers (o : op) (s : goodix_ts_core) :
  o <> Suspend -> o <> Resume ->
  suspended (exec bdata reg o s) = suspended s.
Proof.
  intros Hs Hr. destruct o as [| | |b| | | |alive]; simpl; try done.
  - unfold goodix_ts_power_on. by destruct (power_on s).
  - unfold goodix_ts_power_off. by destruct (power_on s).
  - unfold goodix_ts_irq_enable. by destruct b, (irq_enabled s).
  - unfold goodix_ts_esd_init. by destruct (esd_default_on bdata).
  - apply esd_work_flags.
Qed.

(** The interrupt-enabled flag is written by suspend and resume, and by
    irq_setup and irq_enable. *)
Lemma irq_enabled_writers (o : op) (s : goodix_ts_core) :
  o <> Suspend -> o <> Resume -> o <> IrqSetup ->
  (forall b, o <> IrqEnable b) ->
  irq_enabled (exec bdata reg o s) = irq_enabled s.
Proof.
  intros Hs Hr Hi He. destruct o as [| | |b| | | |alive]; simpl; try done.
  - unfold goodix_ts_power_on. by destruct (power_on s).
  - unfold goodix_ts_power_off. by destruct (power_on s).
  - by destruct (He b).
  - unfold goodix_ts_esd_init. by destruct (esd_default_on bdata).
  - apply esd_work_flags.
Qed.

Lemma exec_flags_exclusive (o : op) (s : goodix_ts_core) :
  (o = IrqEnable true -> suspended s = false) ->
  flags_exclusive s -> flags_exclusive (exec bdata reg o s).
Proof.
  intros Hg Hinv. unfold flags_exclusive in *.
  destruct o as [| | |b| | | |alive];
    try (rewrite suspended_writers, irq_enabled_writers by done; exact Hinv).
  - simpl. unfold goodix_ts_irq_setup. simpl. by intros [_ ?].
  - rewrite suspended_writers by done. unfold exec.
    destruct (irq_enable_sets_flag s b) as [_ ->].
    destruct b; [|by intros [_ ?]].
    rewrite Hg by done. by intros [? _].
  - unfold exec. destruct (suspend_flags s) as [_ ->]. by intros [_ ?].
  - unfold exec. destruct (resume_flags s) as [-> _]. by intros [? _].
Qed.

Lemma run_flags_exclusive (ops : list op) :
  forall s : goodix_ts_core,
    guarded bdata reg ops s = true ->
    flags_exclusive s -> flags_exclusive (run bdata reg ops s).
Proof.
  induction ops as [|o ops IH]; intros s Hg Hinv; [done|].
  simpl in Hg. apply andb_true_iff in Hg as [Ho Hg].
  change (run bdata reg (o :: ops) s)
    with (run bdata reg ops (exec bdata reg o s)).
  apply IH; [done|]. apply exec_flags_exclusive; [|done].
  intros ->. by destruct (suspended s).
Qed.


(** *** The watchdog *)

Lemma log_ok_emit (e : hw_event) (s : goodix_ts_core) :
  (is_liveness_write e = true -> suspended s = false) ->
  log_ok (hw_log s) -> log_ok (hw_log (emit e s)).
Proof.
  intros He Hl. unfold log_ok, emit. simpl.
  apply Forall_app. split; [done|]. by repeat constructor.
Qed.

Lemma log_sentinel_emit (e : hw_event) (s : goodix_ts_core) :
  sentinel_write reg e ->
  log_sentinel reg (hw_log s) -> log_sentinel reg (hw_log (emit e s)).
Proof.
  intros He Hl. unfold log_sentinel, emit. simpl.
  apply Forall_app. split; [done|]. by repeat constructor.
Qed.

Lemma log_inv_emit (e : hw_event) (s : goodix_ts_core) :
  sentinel_write reg e ->
  (is_liveness_write e = true -> suspended s = false) ->
  log_inv reg s -> log_inv reg (emit e s).
Proof.
  intros Hsen Hok [H1 H2]. split.
  - by apply log_ok_emit.
  - by apply log_sentinel_emit.
Qed.

(** An effect other than a liveness write. *)
Lemma log_inv_emit_other (e : hw_event) (s : goodix_ts_core) :
  is_liveness_write e = false -> log_inv reg s -> log_inv reg (emit e s).
Proof.
  intros He. apply log_inv_emit.
  - by destruct e.
  - rewrite He. discriminate.
Qed.

Lemma log_inv_set_power_on (b : bool) (s : goodix_ts_core) :
  log_inv reg s -> log_inv reg (set_power_on b s).
Proof. intros H. exact H. Qed.

Lemma log_inv_set_irq_enabled (b : bool) (s : goodix_ts_core) :
  log_inv reg s -> log_inv reg (set_irq_enabled b s).
Proof. intros H. exact H. Qed.

Lemma log_inv_set_suspended (b : bool) (s : goodix_ts_core) :
  log_inv reg s -> log_inv reg (set_suspended b s).
Proof. intros H. exact H. Qed.

Lemma log_inv_set_esd_on (b : bool) (s : goodix_ts_core) :
  log_inv reg s -> log_inv reg (set_esd_on b s).
Proof. intros H. exact H. Qed.

Lemma log_inv_set_irq_line (b : bool) (d : Z) (s : goodix_ts_core) :
  log_inv reg s -> log_inv reg (set_irq_line b d s).
Proof. intros H. exact H. Qed.

Lemma log_inv_set_esd_scheduled (b : bool) (s : goodix_ts_core) :
  log_inv reg s -> log_inv reg (set_esd_scheduled b s).
Proof. intros H. exact H. Qed.

(** The goals on a state built from [emit] and the setters. *)
Ltac log_steps :=
  repeat first
    [ assumption
    | apply log_inv_emit_other; [reflexivity |]
    | apply log_inv_set_power_on
    | apply log_inv_set_irq_enabled
    | apply log_inv_set_suspended
    | apply log_inv_set_esd_on
    | apply log_inv_set_irq_line
    | apply log_inv_set_esd_scheduled ].

Lemma log_inv_irq_enable (s : goodix_ts_core) (enable : bool) :
  log_inv reg s -> log_inv reg (snd (goodix_ts_irq_enable s enable)).
Proof.
  intros H. unfold goodix_ts_irq_enable.
  destruct enable, (irq_enabled s); cbn [snd]; log_steps.
Qed.

Lemma log_inv_esd_pause (s : goodix_ts_core) :
  log_inv reg s -> log_inv reg (esd_pause s).
Proof. intros H. unfold esd_pause. log_steps. Qed.

Lemma log_inv_esd_resume (s : goodix_ts_core) :
  log_inv reg s -> log_inv reg (esd_resume s).
Proof. intros H. unfold esd_resume. log_steps. Qed.

Lemma log_inv_notify (e : ts_notify_event) (s : goodix_ts_core) :
  log_inv reg s -> log_inv reg (notify e s).
Proof. intros H. unfold notify. destruct e; cbv zeta; log_steps. Qed.

Lemma log_inv_power_on (s : goodix_ts_core) :
  log_inv reg s -> log_inv reg (snd (goodix_ts_power_on bdata s)).
Proof.
  intros H. unfold goodix_ts_power_on.
  destruct (power_on s); cbn [snd]; log_steps.
Qed.

Lemma log_inv_power_off (s : goodix_ts_core) :
  log_inv reg s -> log_inv reg (snd (goodix_ts_power_off bdata s)).
Proof.
  intros H. unfold goodix_ts_power_off.
  destruct (power_on s); cbn [snd]; log_steps.
Qed.

Lemma log_inv_irq_setup (s : goodix_ts_core) :
  log_inv reg s -> log_inv reg (snd (goodix_ts_irq_setup bdata s)).
Proof. intros H. unfold goodix_ts_irq_setup. cbn [snd]. log_steps. Qed.

Lemma log_inv_suspend (s : goodix_ts_core) :
  log_inv reg s -> log_inv reg (snd (goodix_ts_suspend s)).
Proof.
  intros H. unfold goodix_ts_suspend. cbv zeta. cbn [snd].
  apply log_inv_set_suspended.
  do 2 (apply log_inv_emit_other; [reflexivity|]).
  by apply log_inv_esd_pause, log_inv_irq_enable.
Qed.

Lemma log_inv_resume (s : goodix_ts_core) :
  log_inv reg s -> log_inv reg (snd (goodix_ts_resume s)).
Proof.
  intros H. unfold goodix_ts_resume. cbv zeta. cbn [snd].
  apply log_inv_esd_resume, log_inv_irq_enable.
  do 2 (apply log_inv_emit_other; [reflexivity|]).
  by apply log_inv_set_suspended.
Qed.

Lemma log_inv_esd_init (s : goodix_ts_core) :
  log_inv reg s -> log_inv reg (snd (goodix_ts_esd_init bdata s)).
Proof.
  intros H. unfold goodix_ts_esd_init. cbv zeta. cbn [snd].
  destruct (esd_default_on bdata).
  - by apply log_inv_esd_resume, log_inv_set_esd_on.
  - by apply log_inv_set_esd_on.
Qed.

(** The liveness write of a period is issued under the check of the
    suspended flag, to the ESD register the map holds. *)
Lemma log_inv_esd_work (alive : bool) (s : goodix_ts_core) :
  log_inv reg s -> log_inv reg (goodix_esd_work reg alive s).
Proof.
  intros H. unfold goodix_esd_work. cbv zeta.
  destruct (esd_scheduled s); [|done].
  apply log_inv_esd_resume.
  pose proof (log_inv_set_esd_scheduled false s H) as H'.
  destruct (esd_on (set_esd_scheduled false s)
            && negb (suspended (set_esd_scheduled false s))) eqn:Hc; [|done].
  apply andb_true_iff in Hc as [_ Hsusp%negb_true_iff].
  destruct (Regs.capability (Regs.esd reg)) as [addr|] eqn:Hcap; [|done].
  assert (addr = Regs.esd reg /\ addr <> 0) as [-> Hnz].
  { unfold Regs.capability in Hcap.
    destruct (Z.eqb_spec (Regs.esd reg) 0); [done|]. by injection Hcap as <-. }
  assert (log_inv reg
            (emit CheckHw
               (emit (LivenessWrite (Regs.esd reg) GOODIX_ESD_TICK_WRITE_DATA)
                  (set_esd_scheduled false s)))) as Hw.
  { apply log_inv_emit_other; [reflexivity|].
    apply log_inv_emit; [done | by intros _ | done]. }
  destruct alive; [done|].
  apply log_inv_notify.
  do 3 (apply log_inv_emit_other; [reflexivity|]).
  by apply log_inv_notify.
Qed.

Lemma exec_log (o : op) (s : goodix_ts_core) :
  log_ok (hw_log s) /\ log_sentinel reg (hw_log s) ->
  log_ok (hw_log (exec bdata reg o s)) /\
  log_sentinel reg (hw_log (exec bdata reg o s)).
Proof.
  intros H. change (log_inv reg (exec bdata reg o s)).
  change (log_inv reg s) in H.
  destruct o as [| | |b| | | |alive]; unfold exec.
  - by apply log_inv_power_on.
  - by apply log_inv_power_off.
  - by apply log_inv_irq_setup.
  - by apply log_inv_irq_enable.
  - by apply log_inv_suspend.
  - by apply log_inv_resume.
  - by apply log_inv_esd_init.
  - by apply log_inv_esd_work.
Qed.

Lemma run_log (ops : list op) :
  forall s : goodix_ts_core,
    log_ok (hw_log s) /\ log_sentinel reg (hw_log s) ->
    log_ok (hw_log (run bdata reg ops s)) /\
    log_sentinel reg (hw_log (run bdata reg ops s)).
Proof.
  induction ops as [|o ops IH]; intros s Hs; [done|].
  change (run bdata reg (o :: ops) s)
    with (run bdata reg ops (exec bdata reg o s)).
  by apply IH, exec_log.
Qed.


(** The watchdog never writes to bus address 0: a map without an ESD
    register has no liveness write. *)
Lemma liveness_write_address (ops : list op) (irq_no : Z) :
  Forall (fun '(_, e) =>
            forall addr data, e = LivenessWrite addr data -> addr <> 0)
    (hw_log (run bdata reg ops (init_core irq_no))).
Proof.
  destruct (run_log ops (init_core irq_no)) as [_ Hsen].
  { split; constructor. }
  eapply Forall_impl; [|exact Hsen].
  intros [susp e] He addr data ->. by destruct He as (_ & ? & _).
Qed.

End controller_facts.

(** The watchdog does write while the controller is awake ... *)
Example liveness_write_when_awake :
  hw_log (run sample_board Regs.goodix_ts_regs_normandy
            [EsdInit; EsdWork true] (init_core 5))
  = [(false, EsdSchedule); (false, LivenessWrite 12531 0xAA);
     (false, CheckHw); (false, EsdSchedule)].
Proof. reflexivity. Qed.

(** ... and does not when its task runs in a suspended controller. *)
Example no_liveness_write_when_suspended :
  hw_log (run sample_board Regs.goodix_ts_regs_normandy
            [Suspend; EsdInit; EsdWork true] (init_core 5))
  = [(false, EsdCancel); (false, HwSuspend); (false, PinSuspend);
     (true, EsdSchedule); (true, EsdSchedule)].
Proof. reflexivity. Qed.

(** suspend then resume: interrupts enabled again, the watchdog scheduled. *)
Example suspend_resume :
  let s := run sample_board Regs.goodix_ts_regs_normandy
             [PowerOn; IrqSetup; IrqEnable true; EsdInit; Suspend; Resume]
             (init_core 5) in
  suspended s = false /\ irq_enabled s = true /\ irq_depth s = 0 /\
  esd_scheduled s = true.
Proof. by repeat split. Qed.



Lemma irq_enable_idempotent_witness :
  let s := snd (goodix_ts_irq_enable (init_core 5) true) in
  irq_enabled s = true /\ goodix_ts_irq_enable s true = (0, s).
Proof.
  split; [reflexivity|].
  apply (irq_enable_idempotent
           (snd (goodix_ts_irq_enable (init_core 5) true)) true).
  reflexivity.
Defined.

End CoreFacts.

(** ** The register tables *)
Module RegsFacts.
Import Regs.

Lemma capability_None (addr : Z) : capability addr = None <-> addr = 0.
Proof. unfold capability. destruct (Z.eqb_spec addr 0); split; done. Qed.

Lemma capability_Some (addr a : Z) :
  capability addr = Some a <-> addr <> 0 /\ a = addr.
Proof.
  unfold capability. destruct (Z.eqb_spec addr 0); split.
  - done.
  - by intros [? _].
  - by intros [= <-].
  - by intros [_ ->].
Qed.


(** Of the address fields of the two maps, only these two of the normandy
    map are zero. *)
Lemma zero_address_fields :
  Forall (fun f => f goodix_ts_regs_yellowstone <> 0) address_fields /\
  filter (fun f => f goodix_ts_regs_normandy = 0) address_fields
  = [fw_request; proximity].
Proof. split; [by repeat constructor | reflexivity]. Qed.

End RegsFacts.

(** ** The checksum helpers on every buffer and size *)
Module ChecksumMore.
Import Checksum ChecksumSpec ChecksumFacts.

(** *** Weighted sums *)

Lemma weighted_sum_app (w : Z -> Z) (l1 l2 : list byte) :
  forall i : Z,
    weighted_sum w i (l1 ++ l2)
    = weighted_sum w i l1 + weighted_sum w (i + Z.of_nat (length l1)) l2.
Proof.
  induction l1 as [|b l1 IH]; intros i.
  - simpl. by rewrite Z.add_0_r.
  - cbn [app weighted_sum length]. rewrite IH, Nat2Z.inj_succ.
    replace (i + 1 + Z.of_nat (length l1))
      with (i + Z.succ (Z.of_nat (length l1))) by lia.
    lia.
Qed.

Lemma weighted_sum_ext (w w' : Z -> Z) (l : list byte) :
  forall i : Z,
    (forall j, i <= j < i + Z.of_nat (length l) -> w j = w' j) ->
    weighted_sum w i l = weighted_sum w' i l.
Proof.
  induction l as [|b l IH]; intros i Hw; simpl; [done|].
  rewrite (Hw i) by (simpl; lia). f_equal.
  apply IH. intros j Hj. apply Hw. simpl. lia.
Qed.

Lemma weighted_sum_ones (l : list byte) (i : Z) :
  weighted_sum (fun _ => 1) i l = sum_bytes l.
Proof.
  revert i. induction l as [|b l IH]; intros i; simpl; [done|].
  rewrite IH. lia.
Qed.

(** Replacing one byte moves the sum by the weight of its offset times the
    difference of the two bytes. *)
Lemma weighted_sum_insert (w : Z -> Z) (l : list byte) :
  forall (i : Z) (j : nat) (b b' : byte),
    l !! j = Some b ->
    weighted_sum w i (<[j := b']> l)
    = weighted_sum w i l + w (i + Z.of_nat j) * (u8_val b' - u8_val b).
Proof.
  induction l as [|c l IH]; intros i j b b' Hj; [done|].
  destruct j as [|j].
  - injection Hj as ->. change (<[0%nat := b']> (b :: l)) with (b' :: l).
    cbn [weighted_sum]. change (Z.of_nat 0) with 0. rewrite Z.add_0_r. lia.
  - change (<[S j := b']> (c :: l)) with (c :: <[j := b']> l).
    cbn [weighted_sum].
    rewrite (IH (i + 1) j b b' Hj), Nat2Z.inj_succ.
    replace (i + 1 + Z.of_nat j) with (i + Z.succ (Z.of_nat j)) by lia.
    lia.
Qed.

Lemma weighted_sum_period (w : Z -> Z) (k : Z) (l : list byte) :
  (forall j, w (j + k) = w j) ->
  forall i : Z, weighted_sum w (i + k) l = weighted_sum w i l.
Proof.
  intros Hper. induction l as [|b l IH]; intros i; [done|].
  cbn [weighted_sum]. rewrite Hper.
  replace (i + k + 1) with (i + 1 + k) by lia. by rewrite IH.
Qed.

(** A weight of period [k] gives the same sum [k * n] bytes further on. *)
Lemma weighted_sum_shift (w : Z -> Z) (k : Z) (l : list byte) :
  (forall j, w (j + k) = w j) ->
  forall (n : nat) (i : Z),
    weighted_sum w (i + k * Z.of_nat n) l = weighted_sum w i l.
Proof.
  intros Hper n. induction n as [|n IH]; intros i.
  - f_equal. lia.
  - replace (i + k * Z.of_nat (S n)) with (i + k + k * Z.of_nat n) by lia.
    rewrite IH. by apply weighted_sum_period.
Qed.

Lemma le_weight_period (k : Z) (j : Z) : le_weight k (j + k) = le_weight k j.
Proof.
  unfold le_weight. destruct (Z.eq_dec k 0) as [->|Hk].
  - by rewrite Z.add_0_r.
  - replace (j + k) with (j + 1 * k) by lia. by rewrite Z.mod_add.
Qed.

Lemma be_weight_period (k : Z) (j : Z) : be_weight k (j + k) = be_weight k j.
Proof.
  unfold be_weight. destruct (Z.eq_dec k 0) as [->|Hk].
  - by rewrite Z.add_0_r.
  - replace (j + k) with (j + 1 * k) by lia. by rewrite Z.mod_add.
Qed.

Lemma u8_val_inj (b b' : byte) : u8_val b = u8_val b' -> b = b'.
Proof.
  unfold u8_val. intros H.
  assert (Byte.to_N b = Byte.to_N b') as Hn by lia.
  pose proof (Byte.of_to_N b) as Hb. rewrite Hn, Byte.of_to_N in Hb.
  by injection Hb.
Qed.

(** *** The loads as weighted sums *)

Lemma lor_disjoint (a b n : Z) :
  0 <= n -> 0 <= a < 2 ^ n -> Z.lor a (Z.shiftl b n) = a + b * 2 ^ n.
Proof.
  intros Hn Ha. rewrite Z.lor_comm, lor_shiftl_small by done. lia.
Qed.

(** The bytes a load of [k] bytes at [i] runs over. *)
Lemma take_drop_bytes (data : list byte) (i : Z) (n : nat) :
  0 <= i -> i + Z.of_nat n <= Z.of_nat (length data) ->
  exists bs, length bs = n /\
    take n (drop (Z.to_nat i) data) = bs /\
    forall j : nat, (j < n)%nat ->
      read_u8 data (i + Z.of_nat j) = u8_val <$> bs !! j.
Proof.
  intros Hi Hle. exists (take n (drop (Z.to_nat i) data)).
  split; [rewrite length_take, length_drop; lia|]. split; [done|].
  intros j Hj. unfold read_u8.
  rewrite lookup_take, lookup_drop.
  destruct (decide (j < n)%nat); [|lia].
  do 2 f_equal. lia.
Qed.

Ltac load_bytes data i n :=
  let bs := fresh "bs" in
  let Hlen := fresh "Hlen" in
  let Hbs := fresh "Hbs" in
  let Hrd := fresh "Hrd" in
  destruct (take_drop_bytes data i n) as (bs & Hlen & Hbs & Hrd);
  [lia | lia |];
  change (Z.to_nat (Z.of_nat n)) with n; rewrite ?Hbs;
  repeat (destruct bs as [|? bs]; [discriminate Hlen|]);
  destruct bs; [|discriminate Hlen].

Lemma read_u8_weighted : load_weighted 1 (fun _ => 1) read_u8.
Proof.
  intros data i Hi _ Hle.
  change (Z.to_nat 1) with 1%nat.
  load_bytes data i 1%nat.
  pose proof (Hrd 0%nat ltac:(lia)) as H0.
  change (Z.of_nat 0) with 0 in H0. rewrite Z.add_0_r in H0. rewrite H0.
  simpl. f_equal. lia.
Qed.

Lemma le16_to_cpup_weighted : load_weighted 2 (le_weight 2) le16_to_cpup.
Proof.
  intros data i Hi Hmod Hle. unfold le16_to_cpup.
  change (Z.to_nat 2) with 2%nat.
  load_bytes data i 2%nat.
  pose proof (Hrd 0%nat ltac:(lia)) as H0. pose proof (Hrd 1%nat ltac:(lia)) as H1.
  change (Z.of_nat 0) with 0 in H0. change (Z.of_nat 1) with 1 in H1.
  rewrite Z.add_0_r in H0. rewrite H0, H1. simpl.
  pose proof (u8_val_range b). pose proof (u8_val_range b0).
  rewrite lor_disjoint by lia.
  unfold le_weight.
  replace ((i + 1) mod 2) with 1 by (Z.div_mod_to_equations; lia).
  rewrite Hmod. f_equal. simpl. lia.
Qed.

Lemma be16_to_cpup_weighted : load_weighted 2 (be_weight 2) be16_to_cpup.
Proof.
  intros data i Hi Hmod Hle. unfold be16_to_cpup.
  change (Z.to_nat 2) with 2%nat.
  load_bytes data i 2%nat.
  pose proof (Hrd 0%nat ltac:(lia)) as H0. pose proof (Hrd 1%nat ltac:(lia)) as H1.
  change (Z.of_nat 0) with 0 in H0. change (Z.of_nat 1) with 1 in H1.
  rewrite Z.add_0_r in H0. rewrite H0, H1. simpl.
  pose proof (u8_val_range b). pose proof (u8_val_range b0).
  rewrite lor_shiftl_small by lia.
  unfold be_weight.
  replace ((i + 1) mod 2) with 1 by (Z.div_mod_to_equations; lia).
  rewrite Hmod. f_equal. simpl. lia.
Qed.

Lemma lor_shifted (a b n m : Z) :
  0 <= n <= m -> 0 <= a < 2 ^ (m - n) ->
  Z.lor (Z.shiftl a n) (Z.shiftl b m) = a * 2 ^ n + b * 2 ^ m.
Proof.
  intros Hnm Ha.
  assert (2 ^ m = 2 ^ (m - n) * 2 ^ n) as Hpow.
  { rewrite <- Z.pow_add_r by lia. f_equal. lia. }
  assert (0 < 2 ^ n) by (apply Z.pow_pos_nonneg; lia).
  rewrite (Z.shiftl_mul_pow2 a n) by lia.
  apply lor_disjoint; [lia|]. nia.
Qed.

Ltac weights k :=
  unfold le_weight, be_weight;
  repeat match goal with
  | Hmod : ?i mod k = 0 |- context [(?i + ?c) mod k] =>
      replace ((i + c) mod k) with c by (Z.div_mod_to_equations; lia)
  end;
  repeat match goal with
  | Hmod : ?i mod k = 0 |- _ => rewrite Hmod
  end.

Lemma le32_to_cpup_weighted : load_weighted 4 (le_weight 4) le32_to_cpup.
Proof.
  intros data i Hi Hmod Hle. unfold le32_to_cpup.
  change (Z.to_nat 4) with 4%nat.
  load_bytes data i 4%nat.
  pose proof (Hrd 0%nat ltac:(lia)) as H0. pose proof (Hrd 1%nat ltac:(lia)) as H1.
  pose proof (Hrd 2%nat ltac:(lia)) as H2. pose proof (Hrd 3%nat ltac:(lia)) as H3.
  change (Z.of_nat 0) with 0 in H0. change (Z.of_nat 1) with 1 in H1.
  change (Z.of_nat 2) with 2 in H2. change (Z.of_nat 3) with 3 in H3.
  rewrite Z.add_0_r in H0. rewrite H0, H1, H2, H3. simpl.
  pose proof (u8_val_range b). pose proof (u8_val_range b0).
  pose proof (u8_val_range b1). pose proof (u8_val_range b2).
  rewrite (lor_disjoint (u8_val b) (u8_val b0) 8) by lia.
  rewrite (lor_shifted (u8_val b1) (u8_val b2) 16 24) by (simpl; lia).
  replace (u8_val b1 * 2 ^ 16 + u8_val b2 * 2 ^ 24)
    with (Z.shiftl (u8_val b1 + u8_val b2 * 2 ^ 8) 16)
    by (rewrite Z.shiftl_mul_pow2; lia).
  rewrite lor_disjoint by lia.
  replace (i + 1 + 1) with (i + 2) by lia.
  replace (i + 2 + 1) with (i + 3) by lia.
  weights 4. f_equal. simpl. lia.
Qed.

Lemma be32_to_cpup_weighted : load_weighted 4 (be_weight 4) be32_to_cpup.
Proof.
  intros data i Hi Hmod Hle. unfold be32_to_cpup.
  change (Z.to_nat 4) with 4%nat.
  load_bytes data i 4%nat.
  pose proof (Hrd 0%nat ltac:(lia)) as H0. pose proof (Hrd 1%nat ltac:(lia)) as H1.
  pose proof (Hrd 2%nat ltac:(lia)) as H2. pose proof (Hrd 3%nat ltac:(lia)) as H3.
  change (Z.of_nat 0) with 0 in H0. change (Z.of_nat 1) with 1 in H1.
  change (Z.of_nat 2) with 2 in H2. change (Z.of_nat 3) with 3 in H3.
  rewrite Z.add_0_r in H0. rewrite H0, H1, H2, H3. simpl.
  pose proof (u8_val_range b). pose proof (u8_val_range b0).
  pose proof (u8_val_range b1). pose proof (u8_val_range b2).
  rewrite (lor_shiftl_small (u8_val b1) (u8_val b2) 8) by lia.
  rewrite (Z.lor_comm (Z.shiftl (u8_val b) 24)).
  rewrite (lor_shifted (u8_val b0) (u8_val b) 16 24) by (simpl; lia).
  replace (u8_val b0 * 2 ^ 16 + u8_val b * 2 ^ 24)
    with (Z.shiftl (u8_val b0 + u8_val b * 2 ^ 8) 16)
    by (rewrite Z.shiftl_mul_pow2; lia).
  rewrite Z.lor_comm, lor_disjoint by lia.
  replace (i + 1 + 1) with (i + 2) by lia.
  replace (i + 2 + 1) with (i + 3) by lia.
  weights 4. f_equal. simpl. lia.
Qed.

Lemma take_add {A : Type} (a b : nat) :
  forall l : list A, take (a + b) l = take a l ++ take b (drop a l).
Proof.
  induction a as [|a IH]; intros l; [done|].
  destruct l as [|x l]; simpl; [by rewrite take_nil|].
  by rewrite IH.
Qed.

(** *** The value of the loop *)
Section weighted_loop.
Variable wrap : Z -> Z.
Variable M : Z.
Variable stride : Z.
Variable load : list byte -> Z -> option Z.
Variable w : Z -> Z.
Hypothesis wrap_mod : forall z, wrap z = z mod M.
Hypothesis M_pos : 0 < M.
Hypothesis stride_pos : 1 <= stride.
Hypothesis stride_u32 : (stride | 2 ^ 32).
Hypothesis load_width : load_of_width stride load.
Hypothesis load_sum : load_weighted stride w load.

Lemma wrap_add_l (a b : Z) : wrap (wrap a + b) = wrap (a + b).
Proof. rewrite !wrap_mod. apply Zplus_mod_idemp_l. Qed.

Lemma wrap_0 : wrap 0 = 0.
Proof. rewrite wrap_mod. apply Z.mod_0_l. lia. Qed.

Lemma wrap_range (z : Z) : 0 <= wrap z < M.
Proof. rewrite wrap_mod. apply Z.mod_pos_bound. lia. Qed.

(** The loads of [m] whole words add up to the weighted sum of their
    bytes. *)
Lemma loads_sum_weighted (m : nat) :
  forall (data : list byte) (i : Z),
    0 <= i -> i mod stride = 0 ->
    i + stride * Z.of_nat m <= Z.of_nat (length data) ->
    loads_sum stride load m data i
    = weighted_sum w i
        (take (Z.to_nat (stride * Z.of_nat m)) (drop (Z.to_nat i) data)).
Proof.
  induction m as [|m IH]; intros data i Hi Hmod Hle.
  - rewrite Z.mul_0_r. done.
  - cbn [loads_sum].
    rewrite (load_sum data i) by (done || nia). cbn [default].
    rewrite IH; [|lia| |lia].
    2:{ replace (i + stride) with (i + 1 * stride) by lia.
        by rewrite Z.mod_add by lia. }
    replace (Z.to_nat (stride * Z.of_nat (S m)))
      with (Z.to_nat stride + Z.to_nat (stride * Z.of_nat m))%nat by nia.
    rewrite take_add, weighted_sum_app, length_take, length_drop, drop_drop.
    assert (i + stride <= Z.of_nat (length data)) by nia.
    unfold id. f_equal. f_equal; [lia|].
    by replace (Z.to_nat (i + stride)) with (Z.to_nat i + Z.to_nat stride)%nat
      by lia.
Qed.

(** The test of the loop sees [bound] only rounded up to the stride. *)
Lemma sum_loop_round_up (fuel : nat) :
  forall (data : list byte) (bound i c : Z),
    0 <= i -> i mod stride = 0 ->
    sum_loop wrap stride load fuel data bound i c
    = sum_loop wrap stride load fuel data (round_up bound stride) i c.
Proof.
  induction fuel as [|fuel IH]; intros data bound i c Hi Hmod; [done|].
  cbn [sum_loop].
  assert ((i <? bound) = (i <? round_up bound stride)) as <-.
  { unfold round_up, Cmd.align_up.
    pose proof (Z.div_mod (bound + stride - 1) stride ltac:(lia)) as Hq.
    pose proof (Z.mod_pos_bound (bound + stride - 1) stride ltac:(lia)) as Hr.
    pose proof (Z.div_mod i stride ltac:(lia)) as Hi'. rewrite Hmod in Hi'.
    set (q := (bound + stride - 1) / stride) in *.
    set (q' := i / stride) in *.
    destruct (Z.ltb_spec i bound), (Z.ltb_spec i (q * stride));
      try done; exfalso; [nia|].
    assert (q' < q) by nia. assert (stride * (q' + 1) <= stride * q) by nia.
    lia. }
  destruct (i <? bound); [|done].
  destruct (load data i); [|done].
  apply IH.
  - unfold u32. apply Z.mod_pos_bound. lia.
  - unfold u32. rewrite Z.mod_mod_divide by done.
    replace (i + stride) with (i + 1 * stride) by lia.
    by rewrite Z.mod_add by lia.
Qed.

Lemma round_up_spec (size : Z) :
  0 <= size ->
  round_up size stride mod stride = 0 /\
  size <= round_up size stride < size + stride /\
  round_up size stride = stride * (round_up size stride / stride).
Proof.
  intros Hs. unfold round_up, Cmd.align_up.
  pose proof (Z.div_mod (size + stride - 1) stride ltac:(lia)) as Hq.
  pose proof (Z.mod_pos_bound (size + stride - 1) stride ltac:(lia)) as Hr.
  set (q := (size + stride - 1) / stride) in *.
  rewrite Z.mod_mul, Z.div_mul by lia.
  split; [done|]. split; lia.
Qed.

Lemma round_up_multiple (size : Z) :
  size mod stride = 0 -> round_up size stride = size.
Proof.
  intros Hm. unfold round_up, Cmd.align_up.
  pose proof (Z.div_mod size stride ltac:(lia)) as Hq.
  rewrite Hm, Z.add_0_r in Hq.
  replace (size + stride - 1) with (size / stride * stride + (stride - 1))
    by lia.
  rewrite Z.div_add_l, (Z.div_small (stride - 1)) by lia. lia.
Qed.

(** The loop on every buffer and size: it returns the weighted sum of the
    first [size] bytes, [size] rounded up to the stride, when the buffer
    holds that many, and otherwise faults at the first word that does not
    fit the buffer. *)
Lemma sum_loop_total (data : list byte) (size : Z) :
  Z.of_nat (length data) < 2 ^ 32 -> 0 <= size ->
  (round_up size stride <= Z.of_nat (length data) ->
     sum_loop wrap stride load (fuel_for data) data size 0 0
     = Done (wrap (weighted_sum w 0
                     (take (Z.to_nat (round_up size stride)) data)))) /\
  (Z.of_nat (length data) < round_up size stride ->
     sum_loop wrap stride load (fuel_for data) data size 0 0
     = Fault (stride * (Z.of_nat (length data) / stride))).
Proof.
  intros H32 Hs.
  destruct (round_up_spec size Hs) as (Hmod & Hrange & Hmul).
  set (R := round_up size stride) in *.
  rewrite (sum_loop_round_up (fuel_for data) data size 0 0)
    by (done || apply Z.mod_0_l; lia).
  fold R.
  assert (0 <= R / stride) by (apply Z.div_pos; lia).
  split; intros HR.
  - pose proof (sum_loop_done wrap stride load wrap_add_l stride_pos load_width
                  (Z.to_nat (R / stride)) (fuel_for data) data 0 0) as Hd.
    rewrite Z2Nat.id in Hd by lia.
    replace (0 + stride * (R / stride)) with R in Hd by lia.
    rewrite Hd; [|lia|lia|lia|unfold fuel_for; nia|apply wrap_0].
    rewrite loads_sum_weighted; [|lia|by apply Z.mod_0_l; lia|lia].
    rewrite Z2Nat.id, <- Hmul by lia.
    by rewrite Z.add_0_l, drop_0.
  - pose proof (Z.div_mod (Z.of_nat (length data)) stride ltac:(lia)) as Hq.
    pose proof (Z.mod_pos_bound (Z.of_nat (length data)) stride ltac:(lia)) as Hr.
    assert (0 <= Z.of_nat (length data) / stride) by (apply Z.div_pos; lia).
    pose proof (sum_loop_fault wrap stride load stride_pos load_width
                  (Z.to_nat (Z.of_nat (length data) / stride)) (fuel_for data)
                  data R 0 0) as Hf.
    rewrite Z2Nat.id in Hf by lia.
    rewrite Hf; [f_equal; lia|lia|lia|lia|lia|lia|unfold fuel_for; nia].
Qed.

(** Two sums that differ by less than the modulus, and not by zero, wrap
    to different values. *)
Lemma wrap_apart (a d : Z) :
  d <> 0 -> Z.abs d < M -> wrap (a + d) <> wrap a.
Proof.
  intros Hd Habs Heq. rewrite !wrap_mod in Heq.
  assert ((a + d - a) mod M = 0) as Hz.
  { rewrite Zminus_mod, Heq, Z.sub_diag. apply Z.mod_0_l. lia. }
  replace (a + d - a) with d in Hz by lia.
  apply Z.mod_divide in Hz; [|lia]. destruct Hz as [q Hq].
  assert (q = 0 \/ 1 <= q \/ q <= -1) as [->|[Hq1|Hq1]] by lia; [lia| |];
    destruct (Z.abs_spec d) as [[? Ha]|[? Ha]]; rewrite Ha in Habs; nia.
Qed.

(** A corrupted byte among the bytes summed changes the result, when no
    weight is zero or reaches beyond the width of the sum. *)
Lemma sum_loop_detects (data : list byte) (size : Z) (j : nat) (b b' : byte) :
  (forall i, 0 <= i -> w i <> 0 /\ 256 * Z.abs (w i) <= M) ->
  Z.of_nat (length data) < 2 ^ 32 -> 0 <= size ->
  round_up size stride <= Z.of_nat (length data) ->
  Z.of_nat j < round_up size stride ->
  data !! j = Some b -> b' <> b ->
  sum_loop wrap stride load (fuel_for (<[j := b']> data))
    (<[j := b']> data) size 0 0
  <> sum_loop wrap stride load (fuel_for data) data size 0 0.
Proof.
  intros Hw H32 Hs HR Hj Hb Hne.
  destruct (sum_loop_total data size H32 Hs) as [Hd _].
  rewrite Hd by done.
  destruct (sum_loop_total (<[j := b']> data) size) as [Hd' _];
    [by rewrite length_insert|done|].
  rewrite Hd' by (by rewrite length_insert).
  rewrite take_insert_lt by lia.
  rewrite (weighted_sum_insert w _ 0 j b b')
    by (rewrite lookup_take; destruct (decide (j < _)%nat); [done|lia]).
  intros [= Heq]. revert Heq. apply wrap_apart.
  - destruct (Hw (0 + Z.of_nat j) ltac:(lia)) as [Hw0 _].
    assert (u8_val b' <> u8_val b) by (intros ?%u8_val_inj; done). nia.
  - destruct (Hw (0 + Z.of_nat j) ltac:(lia)) as [_ HwM].
    pose proof (u8_val_range b). pose proof (u8_val_range b').
    rewrite Z.abs_mul.
    assert (Z.abs (u8_val b' - u8_val b) <= 255) by lia.
    pose proof (Z.abs_nonneg (w (0 + Z.of_nat j))). nia.
Qed.

(** The sum of a concatenation at a word boundary is the wrapped sum of
    the sums of the parts, for a weight that repeats with the stride. *)
Lemma sum_loop_app (l1 l2 : list byte) :
  (forall i, w (i + stride) = w i) ->
  Z.of_nat (length (l1 ++ l2)) < 2 ^ 32 ->
  Z.of_nat (length l1) mod stride = 0 ->
  Z.of_nat (length l2) mod stride = 0 ->
  exists c1 c2,
    sum_loop wrap stride load (fuel_for l1) l1 (Z.of_nat (length l1)) 0 0
    = Done c1 /\
    sum_loop wrap stride load (fuel_for l2) l2 (Z.of_nat (length l2)) 0 0
    = Done c2 /\
    sum_loop wrap stride load (fuel_for (l1 ++ l2)) (l1 ++ l2)
      (Z.of_nat (length (l1 ++ l2))) 0 0
    = Done (wrap (c1 + c2)).
Proof.
  intros Hper H32 Hm1 Hm2. rewrite length_app in H32.
  assert (forall l : list byte,
            Z.of_nat (length l) mod stride = 0 ->
            round_up (Z.of_nat (length l)) stride = Z.of_nat (length l)) as Hru.
  { intros l Hm. by apply round_up_multiple. }
  assert (Z.of_nat (length (l1 ++ l2)) mod stride = 0) as Hm12.
  { rewrite length_app, Nat2Z.inj_add, Z.add_mod, Hm1, Hm2 by lia.
    apply Z.mod_0_l. lia. }
  exists (wrap (weighted_sum w 0 l1)), (wrap (weighted_sum w 0 l2)).
  destruct (sum_loop_total l1 (Z.of_nat (length l1))) as [Hd1 _]; [lia|lia|].
  destruct (sum_loop_total l2 (Z.of_nat (length l2))) as [Hd2 _]; [lia|lia|].
  destruct (sum_loop_total (l1 ++ l2) (Z.of_nat (length (l1 ++ l2))))
    as [Hd12 _]; [rewrite length_app; lia|lia|].
  rewrite Hd1, Hd2, Hd12 by (rewrite Hru; [lia|done]).
  rewrite !Hru, !Nat2Z.id, !firstn_all by done.
  split; [done|]. split; [done|]. f_equal.
  rewrite weighted_sum_app.
  pose proof (Z.div_mod (Z.of_nat (length l1)) stride ltac:(lia)) as Hq.
  rewrite Hm1, Z.add_0_r in Hq.
  assert (0 <= Z.of_nat (length l1) / stride) by (apply Z.div_pos; lia).
  rewrite Hq at 1.
  rewrite <- (Z2Nat.id (Z.of_nat (length l1) / stride)) by lia.
  rewrite (weighted_sum_shift w stride l2 Hper).
  rewrite !wrap_mod. by rewrite <- Zplus_mod.
Qed.

End weighted_loop.

(** *** The six helpers *)

Lemma u8_mod (z : Z) : u8 z = z mod 2 ^ 8.
Proof. reflexivity. Qed.
Lemma u16_mod (z : Z) : u16 z = z mod 2 ^ 16.
Proof. reflexivity. Qed.
Lemma u32_mod (z : Z) : u32 z = z mod 2 ^ 32.
Proof. reflexivity. Qed.

Lemma divide_1_u32 : (1 | 2 ^ 32).
Proof. apply Z.divide_1_l. Qed.
Lemma divide_2_u32 : (2 | 2 ^ 32).
Proof. by exists (2 ^ 31). Qed.
Lemma divide_4_u32 : (4 | 2 ^ 32).
Proof. by exists (2 ^ 30). Qed.

Lemma pow_8_pos : 0 < 2 ^ 8.
Proof. done. Qed.
Lemma pow_16_pos : 0 < 2 ^ 16.
Proof. done. Qed.
Lemma pow_32_pos : 0 < 2 ^ 32.
Proof. done. Qed.

Lemma one_le_1 : 1 <= 1.
Proof. done. Qed.
Lemma one_le_2 : 1 <= 2.
Proof. done. Qed.
Lemma one_le_4 : 1 <= 4.
Proof. done. Qed.

Lemma round_up_1 (size : Z) : round_up size 1 = size.
Proof. apply round_up_multiple; [done|apply Z.mod_1_r]. Qed.

(** X1. checksum_u8 on every buffer and size: with [size] bytes in the
    buffer it returns their sum modulo 256, and with fewer its first read
    outside the buffer is the one just past the end. *)
Theorem checksum_u8_total (data : list byte) (size : Z) :
  Z.of_nat (length data) < 2 ^ 32 -> 0 <= size ->
  (size <= Z.of_nat (length data) ->
     checksum_u8 data size
     = Done (sum_bytes (take (Z.to_nat size) data) mod 256)) /\
  (Z.of_nat (length data) < size ->
     checksum_u8 data size = Fault (Z.of_nat (length data))).
Proof.
  intros H32 Hs. unfold checksum_u8.
  destruct (sum_loop_total u8 (2 ^ 8) 1 read_u8 (fun _ => 1) u8_mod pow_8_pos
              one_le_1 divide_1_u32 read_u8_width read_u8_weighted
              data size H32 Hs) as [Hd Hf].
  rewrite round_up_1 in Hd, Hf. split; intros H.
  - rewrite Hd by done. by rewrite weighted_sum_ones.
  - rewrite Hf by done. f_equal. rewrite Z.div_1_r. lia.
Qed.

Lemma checksum_u8_total_witness :
  checksum_u8 [x01; x02] 5 = Fault 2.
Proof.
  destruct (checksum_u8_total [x01; x02] 5) as [_ H]; [done|done|].
  apply H. done.
Defined.

(** X2. checksum_le16 on every buffer and size: it sums the 16-bit
    little-endian words of the first [size] bytes, [size] rounded up to
    even, modulo 2^16; when the buffer is shorter than that, the first read
    outside it is at the last even offset of the buffer. *)
Theorem checksum_le16_total (data : list byte) (size : Z) :
  Z.of_nat (length data) < 2 ^ 32 -> 0 <= size ->
  (round_up size 2 <= Z.of_nat (length data) ->
     checksum_le16 data size
     = Done (weighted_sum (le_weight 2) 0
               (take (Z.to_nat (round_up size 2)) data) mod 2 ^ 16)) /\
  (Z.of_nat (length data) < round_up size 2 ->
     checksum_le16 data size = Fault (2 * (Z.of_nat (length data) / 2))).
Proof.
  intros H32 Hs.
  apply (sum_loop_total u16 (2 ^ 16) 2 le16_to_cpup (le_weight 2) u16_mod
           pow_16_pos one_le_2 divide_2_u32 le16_to_cpup_width
           le16_to_cpup_weighted data size H32 Hs).
Qed.

Lemma checksum_le16_total_witness :
  checksum_le16 [x01; x02; x03; x04] 3 = Done 1540.
Proof.
  destruct (checksum_le16_total [x01; x02; x03; x04] 3) as [H _]; [done|done|].
  apply H. done.
Defined.

(** X3. checksum_be16 on every buffer and size: as checksum_le16, with the
    words read big-endian. *)
Theorem checksum_be16_total (data : list byte) (size : Z) :
  Z.of_nat (length data) < 2 ^ 32 -> 0 <= size ->
  (round_up size 2 <= Z.of_nat (length data) ->
     checksum_be16 data size
     = Done (weighted_sum (be_weight 2) 0
               (take (Z.to_nat (round_up size 2)) data) mod 2 ^ 16)) /\
  (Z.of_nat (length data) < round_up size 2 ->
     checksum_be16 data size = Fault (2 * (Z.of_nat (length data) / 2))).
Proof.
  intros H32 Hs.
  apply (sum_loop_total u16 (2 ^ 16) 2 be16_to_cpup (be_weight 2) u16_mod
           pow_16_pos one_le_2 divide_2_u32 be16_to_cpup_width
           be16_to_cpup_weighted data size H32 Hs).
Qed.

Lemma checksum_be16_total_witness :
  checksum_be16 [x01; x02; x03] 3 = Fault 2.
Proof.
  destruct (checksum_be16_total [x01; x02; x03] 3) as [_ H]; [done|done|].
  apply H. done.
Defined.

(** X4. checksum_le32 on every buffer and size: it sums the 32-bit
    little-endian words of the first [size] bytes, [size] rounded up to a
    multiple of 4, modulo 2^32; when the buffer is shorter than that, the
    first read outside it is at the last offset of the buffer that is a
    multiple of 4. *)
Theorem checksum_le32_total (data : list byte) (size : Z) :
  Z.of_nat (length data) < 2 ^ 32 -> 0 <= size ->
  (round_up size 4 <= Z.of_nat (length data) ->
     checksum_le32 data size
     = Done (weighted_sum (le_weight 4) 0
               (take (Z.to_nat (round_up size 4)) data) mod 2 ^ 32)) /\
  (Z.of_nat (length data) < round_up size 4 ->
     checksum_le32 data size = Fault (4 * (Z.of_nat (length data) / 4))).
Proof.
  intros H32 Hs.
  apply (sum_loop_total u32 (2 ^ 32) 4 le32_to_cpup (le_weight 4) u32_mod
           pow_32_pos one_le_4 divide_4_u32 le32_to_cpup_width
           le32_to_cpup_weighted data size H32 Hs).
Qed.

Lemma checksum_le32_total_witness :
  checksum_le32 [x01; x00; x00; x00; x02; x00; x00; x00] 5 = Done 3.
Proof.
  destruct (checksum_le32_total [x01; x00; x00; x00; x02; x00; x00; x00] 5)
    as [H _]; [done|done|].
  apply H. done.
Defined.

(** X5. checksum_be32 on every buffer and size: as checksum_le32, with the
    words read big-endian. *)
Theorem checksum_be32_total (data : list byte) (size : Z) :
  Z.of_nat (length data) < 2 ^ 32 -> 0 <= size ->
  (round_up size 4 <= Z.of_nat (length data) ->
     checksum_be32 data size
     = Done (weighted_sum (be_weight 4) 0
               (take (Z.to_nat (round_up size 4)) data) mod 2 ^ 32)) /\
  (Z.of_nat (length data) < round_up size 4 ->
     checksum_be32 data size = Fault (4 * (Z.of_nat (length data) / 4))).
Proof.
  intros H32 Hs.
  apply (sum_loop_total u32 (2 ^ 32) 4 be32_to_cpup (be_weight 4) u32_mod
           pow_32_pos one_le_4 divide_4_u32 be32_to_cpup_width
           be32_to_cpup_weighted data size H32 Hs).
Qed.

Lemma checksum_be32_total_witness :
  checksum_be32 [x00; x00; x00; x01; x00; x00; x00; x02; x09] 9 = Fault 8.
Proof.
  destruct (checksum_be32_total
              [x00; x00; x00; x01; x00; x00; x00; x02; x09] 9)
    as [_ H]; [done|done|].
  apply H. done.
Defined.

(** The weights of checksum_u8_ys add up to the sum of the body minus the
    trailing field. *)
Lemma ys_weighted_sum (data : list byte) (size : Z) (hi lo : byte) :
  2 <= size -> size <= Z.of_nat (length data) ->
  data !! Z.to_nat (size - 2) = Some hi ->
  data !! Z.to_nat (size - 1) = Some lo ->
  weighted_sum (ys_weight size) 0 (take (Z.to_nat size) data)
  = sum_bytes (take (Z.to_nat (size - 2)) data)
    - (256 * u8_val hi + u8_val lo).
Proof.
  intros Hs Hle Hhi Hlo.
  replace (Z.to_nat size) with (Z.to_nat (size - 2) + 2)%nat by lia.
  rewrite take_add, weighted_sum_app, length_take.
  rewrite (weighted_sum_ext _ (fun _ => 1)), weighted_sum_ones.
  2:{ intros j Hj. rewrite length_take in Hj. unfold ys_weight.
      destruct (Z.ltb_spec j (size - 2)); [done|lia]. }
  rewrite (drop_S data hi (Z.to_nat (size - 2))) by done.
  rewrite (drop_S data lo (S (Z.to_nat (size - 2))))
    by (rewrite <- Hlo; f_equal; lia).
  cbn [take weighted_sum]. unfold ys_weight.
  replace (0 + Z.of_nat (Z.to_nat (size - 2) `min` length data))
    with (size - 2) by lia.
  rewrite Z.ltb_irrefl, Z.eqb_refl.
  destruct (Z.ltb_spec (size - 2 + 1) (size - 2)); [lia|].
  destruct (Z.eqb_spec (size - 2 + 1) (size - 2)); [lia|].
  rewrite take_0. cbn [weighted_sum]. lia.
Qed.

(** X6. checksum_u8_ys on every buffer and size: for [2 <= size] bytes in
    the buffer it returns, modulo 2^16, the sum of the first [size - 2]
    bytes minus the big-endian value of the last two; for a size below 2 or
    beyond the buffer its first read outside the buffer is the one just
    past the end. *)
Theorem checksum_u8_ys_total (data : list byte) (size : Z) :
  Z.of_nat (length data) < 2 ^ 32 - 2 -> 0 <= size < 2 ^ 32 ->
  (2 <= size <= Z.of_nat (length data) ->
     checksum_u8_ys data size
     = Done (weighted_sum (ys_weight size) 0 (take (Z.to_nat size) data)
             mod 2 ^ 16)) /\
  (size < 2 \/ Z.of_nat (length data) < size ->
     checksum_u8_ys data size = Fault (Z.of_nat (length data))).
Proof.
  intros H32 Hs. split.
  - intros [H2 Hle].
    destruct (trailing_field data size) as (hi & lo & Hhi & Hlo); [lia|lia|].
    rewrite (checksum_u8_ys_value data size hi lo) by (done || lia).
    by rewrite (ys_weighted_sum data size hi lo).
  - intros Hbad. unfold checksum_u8_ys.
    assert (forall bound, Z.of_nat (length data) < bound ->
              sum_loop u16 1 read_u8 (fuel_for data) data bound 0 0
              = Fault (Z.of_nat (length data))) as Hfault.
    { intros bound Hb.
      pose proof (sum_loop_fault u16 1 read_u8 one_le_1 read_u8_width
                    (length data) (fuel_for data) data bound 0 0) as Hf.
      rewrite Hf; [f_equal; lia|lia|lia|lia|lia|lia|unfold fuel_for; lia]. }
    destruct (Z.lt_ge_cases size 2) as [Hlt|Hge].
    + assert (u32 (size - 2) = 2 ^ 32 + size - 2) as ->.
      { unfold u32.
        replace (size - 2) with (2 ^ 32 + size - 2 + (-1) * 2 ^ 32) by lia.
        rewrite Z.mod_add by lia. apply Z.mod_small. lia. }
      rewrite Hfault by lia. done.
    + destruct Hbad as [?|Hlen]; [lia|].
      rewrite !u32_small by lia.
      destruct (Z.lt_ge_cases (Z.of_nat (length data)) (size - 2)) as [?|Hin].
      { by rewrite Hfault. }
      pose proof (sum_loop_done u16 1 read_u8 u16_add_l one_le_1 read_u8_width
                    (Z.to_nat (size - 2)) (fuel_for data) data 0 0) as Hd.
      rewrite Z2Nat.id in Hd by lia.
      replace (0 + 1 * (size - 2)) with (size - 2) in Hd by lia.
      rewrite Hd; [|lia|lia|lia|unfold fuel_for; lia|done].
      rewrite (read_u8_None data (size - 1)) by lia.
      destruct (read_u8 data (size - 2)) eqn:E.
      * f_equal. assert (is_Some (read_u8 data (size - 2))) as Hsome
          by (rewrite E; eauto).
        apply read_u8_is_Some in Hsome; lia.
      * f_equal.
        destruct (Z.eq_dec (Z.of_nat (length data)) (size - 2)); [lia|].
        destruct (read_u8_Some data (size - 2)) as [v Hv]; [lia|lia|].
        congruence.
Qed.

Lemma checksum_u8_ys_total_witness :
  checksum_u8_ys [x01; x02; x03] 0 = Fault 3.
Proof.
  destruct (checksum_u8_ys_total [x01; x02; x03] 0) as [_ H]; [done|done|].
  apply H. left. done.
Defined.

(** *** A corrupted byte *)

Lemma le_weight_2_bound (i : Z) :
  0 <= i -> le_weight 2 i <> 0 /\ 256 * Z.abs (le_weight 2 i) <= 2 ^ 16.
Proof.
  intros Hi. unfold le_weight.
  assert (i mod 2 = 0 \/ i mod 2 = 1) as [->| ->]
    by (Z.div_mod_to_equations; lia); done.
Qed.

Lemma be_weight_2_bound (i : Z) :
  0 <= i -> be_weight 2 i <> 0 /\ 256 * Z.abs (be_weight 2 i) <= 2 ^ 16.
Proof.
  intros Hi. unfold be_weight.
  assert (i mod 2 = 0 \/ i mod 2 = 1) as [->| ->]
    by (Z.div_mod_to_equations; lia); done.
Qed.

Lemma le_weight_4_bound (i : Z) :
  0 <= i -> le_weight 4 i <> 0 /\ 256 * Z.abs (le_weight 4 i) <= 2 ^ 32.
Proof.
  intros Hi. unfold le_weight.
  assert (i mod 4 = 0 \/ i mod 4 = 1 \/ i mod 4 = 2 \/ i mod 4 = 3)
    as [->|[->|[->| ->]]] by (Z.div_mod_to_equations; lia); done.
Qed.

Lemma be_weight_4_bound (i : Z) :
  0 <= i -> be_weight 4 i <> 0 /\ 256 * Z.abs (be_weight 4 i) <= 2 ^ 32.
Proof.
  intros Hi. unfold be_weight.
  assert (i mod 4 = 0 \/ i mod 4 = 1 \/ i mod 4 = 2 \/ i mod 4 = 3)
    as [->|[->|[->| ->]]] by (Z.div_mod_to_equations; lia); done.
Qed.

(** X7. checksum_u8 detects every single corrupted byte: a buffer that
    differs from another in exactly one of the [size] bytes summed has a
    different checksum. *)
Theorem checksum_u8_detects (data : list byte) (size : Z) (j : nat)
    (b b' : byte) :
  Z.of_nat (length data) < 2 ^ 32 ->
  Z.of_nat j < size <= Z.of_nat (length data) ->
  data !! j = Some b -> b' <> b ->
  checksum_u8 (<[j := b']> data) size <> checksum_u8 data size.
Proof.
  intros H32 Hj Hb Hne.
  apply (sum_loop_detects u8 (2 ^ 8) 1 read_u8 (fun _ => 1) u8_mod pow_8_pos
           one_le_1 divide_1_u32 read_u8_width read_u8_weighted
           data size j b b'); try done; rewrite ?round_up_1; lia.
Qed.

Lemma checksum_u8_detects_witness :
  checksum_u8 [x01; x07; x03] 3 <> checksum_u8 [x01; x02; x03] 3.
Proof.
  apply (checksum_u8_detects [x01; x02; x03] 3 1 x02 x07); done.
Defined.

(** X8. checksum_le16 and checksum_be16 detect every single corrupted byte
    among the bytes they sum. *)
Theorem checksum_16_detects (data : list byte) (size : Z) (j : nat)
    (b b' : byte) :
  Z.of_nat (length data) < 2 ^ 32 -> 0 <= size ->
  Z.of_nat j < round_up size 2 <= Z.of_nat (length data) ->
  data !! j = Some b -> b' <> b ->
  checksum_le16 (<[j := b']> data) size <> checksum_le16 data size /\
  checksum_be16 (<[j := b']> data) size <> checksum_be16 data size.
Proof.
  intros H32 Hs Hj Hb Hne. split.
  - apply (sum_loop_detects u16 (2 ^ 16) 2 le16_to_cpup (le_weight 2) u16_mod
             pow_16_pos one_le_2 divide_2_u32 le16_to_cpup_width
             le16_to_cpup_weighted data size j b b' le_weight_2_bound);
      (done || lia).
  - apply (sum_loop_detects u16 (2 ^ 16) 2 be16_to_cpup (be_weight 2) u16_mod
             pow_16_pos one_le_2 divide_2_u32 be16_to_cpup_width
             be16_to_cpup_weighted data size j b b' be_weight_2_bound);
      (done || lia).
Qed.

Lemma checksum_16_detects_witness :
  checksum_le16 [x01; x02; xff; x04] 4 <> checksum_le16 [x01; x02; x03; x04] 4.
Proof.
  apply (checksum_16_detects [x01; x02; x03; x04] 4 2 x03 xff); done.
Defined.

(** X9. checksum_le32 and checksum_be32 detect every single corrupted byte
    among the bytes they sum. *)
Theorem checksum_32_detects (data : list byte) (size : Z) (j : nat)
    (b b' : byte) :
  Z.of_nat (length data) < 2 ^ 32 -> 0 <= size ->
  Z.of_nat j < round_up size 4 <= Z.of_nat (length data) ->
  data !! j = Some b -> b' <> b ->
  checksum_le32 (<[j := b']> data) size <> checksum_le32 data size /\
  checksum_be32 (<[j := b']> data) size <> checksum_be32 data size.
Proof.
  intros H32 Hs Hj Hb Hne. split.
  - apply (sum_loop_detects u32 (2 ^ 32) 4 le32_to_cpup (le_weight 4) u32_mod
             pow_32_pos one_le_4 divide_4_u32 le32_to_cpup_width
             le32_to_cpup_weighted data size j b b' le_weight_4_bound);
      (done || lia).
  - apply (sum_loop_detects u32 (2 ^ 32) 4 be32_to_cpup (be_weight 4) u32_mod
             pow_32_pos one_le_4 divide_4_u32 be32_to_cpup_width
             be32_to_cpup_weighted data size j b b' be_weight_4_bound);
      (done || lia).
Qed.

Lemma checksum_32_detects_witness :
  checksum_be32 [x01; x02; x03; xff] 4 <> checksum_be32 [x01; x02; x03; x04] 4.
Proof.
  apply (checksum_32_detects [x01; x02; x03; x04] 4 3 x04 xff); done.
Defined.

(** X10. checksum_u8_ys detects every single corrupted byte, in the body
    and in the trailing field alike. *)
Theorem checksum_u8_ys_detects (data : list byte) (size : Z) (j : nat)
    (b b' : byte) :
  Z.of_nat (length data) < 2 ^ 32 - 2 ->
  2 <= size <= Z.of_nat (length data) -> Z.of_nat j < size ->
  data !! j = Some b -> b' <> b ->
  checksum_u8_ys (<[j := b']> data) size <> checksum_u8_ys data size.
Proof.
  intros H32 Hs Hj Hb Hne.
  destruct (checksum_u8_ys_total data size) as [Hd _]; [lia|lia|].
  rewrite Hd by done.
  destruct (checksum_u8_ys_total (<[j := b']> data) size) as [Hd' _];
    [rewrite length_insert; lia|lia|].
  rewrite Hd' by (rewrite length_insert; lia).
  rewrite take_insert_lt by lia.
  rewrite (weighted_sum_insert _ _ 0 j b b')
    by (rewrite lookup_take; destruct (decide (j < _)%nat); [done|lia]).
  intros [= Heq]. revert Heq.
  assert (u8_val b' <> u8_val b) by (intros ?%u8_val_inj; done).
  pose proof (u8_val_range b). pose proof (u8_val_range b').
  apply (wrap_apart u16 (2 ^ 16) u16_mod pow_16_pos);
    unfold ys_weight;
    destruct (0 + Z.of_nat j <? size - 2), (0 + Z.of_nat j =? size - 2); lia.
Qed.

Lemma checksum_u8_ys_detects_witness :
  checksum_u8_ys [x01; x02; x00; x04] 4 <> checksum_u8_ys [x01; x02; x00; x03] 4.
Proof.
  apply (checksum_u8_ys_detects [x01; x02; x00; x03] 4 3 x03 x04); done.
Defined.

(** *** Concatenation, reordering and byte order *)

(** X11. The 16-bit checksums of a concatenation at an even offset are the
    sums modulo 2^16 of the checksums of the parts. *)
Theorem checksum_16_app (l1 l2 : list byte) :
  Z.of_nat (length (l1 ++ l2)) < 2 ^ 32 ->
  Z.of_nat (length l1) mod 2 = 0 -> Z.of_nat (length l2) mod 2 = 0 ->
  (exists c1 c2,
     checksum_le16 l1 (Z.of_nat (length l1)) = Done c1 /\
     checksum_le16 l2 (Z.of_nat (length l2)) = Done c2 /\
     checksum_le16 (l1 ++ l2) (Z.of_nat (length (l1 ++ l2)))
     = Done ((c1 + c2) mod 2 ^ 16)) /\
  (exists c1 c2,
     checksum_be16 l1 (Z.of_nat (length l1)) = Done c1 /\
     checksum_be16 l2 (Z.of_nat (length l2)) = Done c2 /\
     checksum_be16 (l1 ++ l2) (Z.of_nat (length (l1 ++ l2)))
     = Done ((c1 + c2) mod 2 ^ 16)).
Proof.
  intros H32 H1 H2. split.
  - apply (sum_loop_app u16 (2 ^ 16) 2 le16_to_cpup (le_weight 2) u16_mod
             pow_16_pos one_le_2 divide_2_u32 le16_to_cpup_width
             le16_to_cpup_weighted l1 l2 (le_weight_period 2) H32 H1 H2).
  - apply (sum_loop_app u16 (2 ^ 16) 2 be16_to_cpup (be_weight 2) u16_mod
             pow_16_pos one_le_2 divide_2_u32 be16_to_cpup_width
             be16_to_cpup_weighted l1 l2 (be_weight_period 2) H32 H1 H2).
Qed.

Lemma checksum_16_app_witness :
  exists c1 c2,
    checksum_le16 [x01; x02] 2 = Done c1 /\
    checksum_le16 [xff; xff] 2 = Done c2 /\
    checksum_le16 [x01; x02; xff; xff] 4 = Done ((c1 + c2) mod 2 ^ 16).
Proof.
  destruct (checksum_16_app [x01; x02] [xff; xff]) as [H _]; [done|done|done|].
  exact H.
Defined.

(** X12. The 32-bit checksums of a concatenation at an offset that is a
    multiple of 4 are the sums modulo 2^32 of the checksums of the parts. *)
Theorem checksum_32_app (l1 l2 : list byte) :
  Z.of_nat (length (l1 ++ l2)) < 2 ^ 32 ->
  Z.of_nat (length l1) mod 4 = 0 -> Z.of_nat (length l2) mod 4 = 0 ->
  (exists c1 c2,
     checksum_le32 l1 (Z.of_nat (length l1)) = Done c1 /\
     checksum_le32 l2 (Z.of_nat (length l2)) = Done c2 /\
     checksum_le32 (l1 ++ l2) (Z.of_nat (length (l1 ++ l2)))
     = Done ((c1 + c2) mod 2 ^ 32)) /\
  (exists c1 c2,
     checksum_be32 l1 (Z.of_nat (length l1)) = Done c1 /\
     checksum_be32 l2 (Z.of_nat (length l2)) = Done c2 /\
     checksum_be32 (l1 ++ l2) (Z.of_nat (length (l1 ++ l2)))
     = Done ((c1 + c2) mod 2 ^ 32)).
Proof.
  intros H32 H1 H2. split.
  - apply (sum_loop_app u32 (2 ^ 32) 4 le32_to_cpup (le_weight 4) u32_mod
             pow_32_pos one_le_4 divide_4_u32 le32_to_cpup_width
             le32_to_cpup_weighted l1 l2 (le_weight_period 4) H32 H1 H2).
  - apply (sum_loop_app u32 (2 ^ 32) 4 be32_to_cpup (be_weight 4) u32_mod
             pow_32_pos one_le_4 divide_4_u32 be32_to_cpup_width
             be32_to_cpup_weighted l1 l2 (be_weight_period 4) H32 H1 H2).
Qed.

Lemma checksum_32_app_witness :
  exists c1 c2,
    checksum_be32 [x00; x00; x01; x02] 4 = Done c1 /\
    checksum_be32 [xff; xff; xff; xff] 4 = Done c2 /\
    checksum_be32 [x00; x00; x01; x02; xff; xff; xff; xff] 8
    = Done ((c1 + c2) mod 2 ^ 32).
Proof.
  destruct (checksum_32_app [x00; x00; x01; x02] [xff; xff; xff; xff])
    as [_ H]; [done|done|done|].
  exact H.
Defined.

Lemma sum_bytes_Permutation (l l' : list byte) :
  l ≡ₚ l' -> sum_bytes l = sum_bytes l'.
Proof.
  induction 1 as [|b l l' _ IH|b c l|l l' l'' _ IH1 _ IH2]; simpl.
  - done.
  - by rewrite IH.
  - lia.
  - by rewrite IH1.
Qed.

(** X13. checksum_u8 does not see the order of the bytes: two buffers with
    the same bytes in any order have the same checksum. *)
Theorem checksum_u8_Permutation (l l' : list byte) :
  Z.of_nat (length l) < 2 ^ 32 -> l ≡ₚ l' ->
  checksum_u8 l' (Z.of_nat (length l')) = checksum_u8 l (Z.of_nat (length l)).
Proof.
  intros H32 Hp.
  rewrite !checksum_u8_whole by (rewrite <- ?Hp; done).
  by rewrite (sum_bytes_Permutation l l').
Qed.

Lemma checksum_u8_Permutation_witness :
  checksum_u8 [x03; x01; x02] 3 = checksum_u8 [x01; x02; x03] 3.
Proof.
  apply (checksum_u8_Permutation [x01; x02; x03] [x03; x01; x02]); [done|].
  symmetry. apply (Permutation_cons_append [x01; x02] x03).
Defined.

Lemma swab16_length (n : nat) :
  forall l : list byte, (length l <= n)%nat -> length (swab16 l) = length l.
Proof.
  induction n as [|n IH]; intros [|b0 [|b1 l]] Hl; simpl in *; try done;
    try lia.
  rewrite IH by lia. done.
Qed.

Lemma swab32_length (n : nat) :
  forall l : list byte, (length l <= n)%nat -> length (swab32 l) = length l.
Proof.
  induction n as [|n IH]; intros [|b0 [|b1 [|b2 [|b3 l]]]] Hl; simpl in *;
    try done; try lia.
  rewrite IH by lia. done.
Qed.

Lemma take_swab16 (n : nat) :
  forall l : list byte, take (2 * n) (swab16 l) = swab16 (take (2 * n) l).
Proof.
  induction n as [|n IH]; intros l; [done|].
  replace (2 * S n)%nat with (S (S (2 * n))) by lia.
  destruct l as [|b0 [|b1 l]]; try done.
  cbn [swab16 take]. by rewrite IH.
Qed.

Lemma take_swab32 (n : nat) :
  forall l : list byte, take (4 * n) (swab32 l) = swab32 (take (4 * n) l).
Proof.
  induction n as [|n IH]; intros l; [done|].
  replace (4 * S n)%nat with (S (S (S (S (4 * n))))) by lia.
  destruct l as [|b0 [|b1 [|b2 [|b3 l]]]]; try done.
  cbn [swab32 take]. by rewrite IH.
Qed.

Lemma weighted_sum_swab16 (n : nat) :
  forall (l : list byte) (i : Z),
    length l = (2 * n)%nat -> i mod 2 = 0 ->
    weighted_sum (be_weight 2) i l = weighted_sum (le_weight 2) i (swab16 l).
Proof.
  induction n as [|n IH]; intros l i Hl Hmod.
  - by destruct l.
  - destruct l as [|b0 [|b1 l]]; try (simpl in Hl; lia).
    cbn [swab16 weighted_sum].
    rewrite (IH l (i + 1 + 1)); [|simpl in Hl; lia|].
    2:{ replace (i + 1 + 1) with (i + 1 * 2) by lia.
        by rewrite Z.mod_add by lia. }
    unfold le_weight, be_weight.
    replace ((i + 1) mod 2) with 1 by (Z.div_mod_to_equations; lia).
    rewrite Hmod. simpl. lia.
Qed.

Lemma weighted_sum_swab32 (n : nat) :
  forall (l : list byte) (i : Z),
    length l = (4 * n)%nat -> i mod 4 = 0 ->
    weighted_sum (be_weight 4) i l = weighted_sum (le_weight 4) i (swab32 l).
Proof.
  induction n as [|n IH]; intros l i Hl Hmod.
  - by destruct l.
  - destruct l as [|b0 [|b1 [|b2 [|b3 l]]]]; try (simpl in Hl; lia).
    cbn [swab32 weighted_sum].
    rewrite (IH l (i + 1 + 1 + 1 + 1)); [|simpl in Hl; lia|].
    2:{ replace (i + 1 + 1 + 1 + 1) with (i + 1 * 4) by lia.
        by rewrite Z.mod_add by lia. }
    unfold le_weight, be_weight.
    replace ((i + 1) mod 4) with 1 by (Z.div_mod_to_equations; lia).
    replace ((i + 1 + 1) mod 4) with 2 by (Z.div_mod_to_equations; lia).
    replace ((i + 1 + 1 + 1) mod 4) with 3 by (Z.div_mod_to_equations; lia).
    rewrite Hmod. simpl. lia.
Qed.

(** X14. The big-endian 16-bit checksum of a buffer is the little-endian
    one of the buffer with the two bytes of every word exchanged, on every
    buffer and size, faults included. *)
Theorem checksum_be16_swab16 (data : list byte) (size : Z) :
  Z.of_nat (length data) < 2 ^ 32 -> 0 <= size ->
  checksum_be16 data size = checksum_le16 (swab16 data) size.
Proof.
  intros H32 Hs.
  pose proof (swab16_length (length data) data ltac:(lia)) as Hlen.
  destruct (sum_loop_total u16 (2 ^ 16) 2 be16_to_cpup (be_weight 2) u16_mod
              pow_16_pos one_le_2 divide_2_u32 be16_to_cpup_width
              be16_to_cpup_weighted data size H32 Hs) as [Hd Hf].
  destruct (sum_loop_total u16 (2 ^ 16) 2 le16_to_cpup (le_weight 2) u16_mod
              pow_16_pos one_le_2 divide_2_u32 le16_to_cpup_width
              le16_to_cpup_weighted (swab16 data) size) as [Hd' Hf'];
    [by rewrite Hlen|done|].
  rewrite Hlen in Hd', Hf'. unfold checksum_be16, checksum_le16.
  destruct (round_up_spec 2 one_le_2 size Hs) as (Hmod & Hrange & Hmul).
  destruct (Z.le_gt_cases (round_up size 2) (Z.of_nat (length data))) as [Hle|Hgt].
  - rewrite Hd, Hd' by done. do 2 f_equal.
    set (n := Z.to_nat (round_up size 2 / 2)).
    replace (Z.to_nat (round_up size 2)) with (2 * n)%nat by lia.
    rewrite take_swab16.
    apply (weighted_sum_swab16 n); [|done].
    rewrite length_take. lia.
  - by rewrite Hf, Hf'.
Qed.

Lemma checksum_be16_swab16_witness :
  checksum_be16 [x01; x02; x03; x04] 4 = checksum_le16 [x02; x01; x04; x03] 4.
Proof. apply (checksum_be16_swab16 [x01; x02; x03; x04] 4); done. Defined.

(** X15. The big-endian 32-bit checksum of a buffer is the little-endian
    one of the buffer with the four bytes of every word reversed, on every
    buffer and size, faults included. *)
Theorem checksum_be32_swab32 (data : list byte) (size : Z) :
  Z.of_nat (length data) < 2 ^ 32 -> 0 <= size ->
  checksum_be32 data size = checksum_le32 (swab32 data) size.
Proof.
  intros H32 Hs.
  pose proof (swab32_length (length data) data ltac:(lia)) as Hlen.
  destruct (sum_loop_total u32 (2 ^ 32) 4 be32_to_cpup (be_weight 4) u32_mod
              pow_32_pos one_le_4 divide_4_u32 be32_to_cpup_width
              be32_to_cpup_weighted data size H32 Hs) as [Hd Hf].
  destruct (sum_loop_total u32 (2 ^ 32) 4 le32_to_cpup (le_weight 4) u32_mod
              pow_32_pos one_le_4 divide_4_u32 le32_to_cpup_width
              le32_to_cpup_weighted (swab32 data) size) as [Hd' Hf'];
    [by rewrite Hlen|done|].
  rewrite Hlen in Hd', Hf'. unfold checksum_be32, checksum_le32.
  destruct (round_up_spec 4 one_le_4 size Hs) as (Hmod & Hrange & Hmul).
  destruct (Z.le_gt_cases (round_up size 4) (Z.of_nat (length data))) as [Hle|Hgt].
  - rewrite Hd, Hd' by done. do 2 f_equal.
    set (n := Z.to_nat (round_up size 4 / 4)).
    replace (Z.to_nat (round_up size 4)) with (4 * n)%nat by lia.
    rewrite take_swab32.
    apply (weighted_sum_swab32 n); [|done].
    rewrite length_take. lia.
  - by rewrite Hf, Hf'.
Qed.

Lemma checksum_be32_swab32_witness :
  checksum_be32 [x01; x02; x03; x04] 4 = checksum_le32 [x04; x03; x02; x01] 4.
Proof. apply (checksum_be32_swab32 [x01; x02; x03; x04] 4); done. Defined.

(** *** Sealing a buffer *)

(** X16. A buffer followed by the byte that is minus the sum of its bytes
    has checksum_u8 zero. *)
Theorem checksum_u8_seal (body : list byte) :
  Z.of_nat (length body) + 1 < 2 ^ 32 ->
  checksum_u8 (body ++ [Cmd.byte_of_Z (- sum_bytes body)])
    (Z.of_nat (length body) + 1)
  = Done 0.
Proof.
  intros H32.
  replace (Z.of_nat (length body) + 1)
    with (Z.of_nat (length (body ++ [Cmd.byte_of_Z (- sum_bytes body)])))
    by (rewrite length_app; simpl; lia).
  rewrite checksum_u8_whole by (rewrite length_app; simpl; lia).
  rewrite sum_bytes_app. cbn [sum_bytes foldr].
  rewrite CmdFacts.u8_val_byte_of_Z, Z.add_0_r. f_equal.
  unfold u8. change (2 ^ 8) with 256.
  rewrite Zplus_mod_idemp_r, Z.add_opp_diag_r. done.
Qed.

Lemma checksum_u8_seal_witness :
  checksum_u8 [x01; x02; xfd] 3 = Done 0.
Proof. apply (checksum_u8_seal [x01; x02]). done. Defined.

(** X17. A buffer followed by the sum of its bytes as a big-endian 16-bit
    field has checksum_u8_ys zero, whatever the sum: only its low 16 bits
    are stored. *)
Theorem checksum_u8_ys_seal (body : list byte) :
  Z.of_nat (length body) + 2 < 2 ^ 32 ->
  checksum_u8_ys
    (body ++ [Cmd.byte_of_Z (sum_bytes body / 256);
              Cmd.byte_of_Z (sum_bytes body)])
    (Z.of_nat (length body) + 2)
  = Done 0.
Proof.
  intros H32.
  set (hi := Cmd.byte_of_Z (sum_bytes body / 256)).
  set (lo := Cmd.byte_of_Z (sum_bytes body)).
  rewrite (checksum_u8_ys_value _ _ hi lo).
  - replace (Z.to_nat (Z.of_nat (length body) + 2 - 2)) with (length body)
      by lia.
    rewrite take_app_length. unfold hi, lo.
    rewrite !CmdFacts.u8_val_byte_of_Z. f_equal. unfold u16.
    pose proof (Z.div_mod (sum_bytes body) 256 ltac:(lia)) as H1.
    pose proof (Z.div_mod (sum_bytes body / 256) 256 ltac:(lia)) as H2.
    replace (sum_bytes body
             - (256 * ((sum_bytes body / 256) mod 256) + sum_bytes body mod 256))
      with (sum_bytes body / 256 / 256 * 2 ^ 16) by lia.
    apply Z.mod_mul. lia.
  - lia.
  - rewrite length_app. simpl. lia.
  - replace (Z.to_nat (Z.of_nat (length body) + 2 - 2)) with (length body)
      by lia.
    rewrite lookup_app_r by lia. by rewrite Nat.sub_diag.
  - replace (Z.to_nat (Z.of_nat (length body) + 2 - 1))
      with (length body + 1)%nat by lia.
    rewrite lookup_app_r by lia.
    by replace (length body + 1 - length body)%nat with 1%nat by lia.
Qed.

Lemma checksum_u8_ys_seal_witness :
  checksum_u8_ys [xff; xff; x01; xfe] 4 = Done 0.
Proof. apply (checksum_u8_ys_seal [xff; xff]). done. Defined.

Lemma checksum_u8_ys_zero_iff_witness :
  checksum_u8_ys [x01; x02; x00; x03] 4 = Done 0 <->
  u16 (sum_bytes (take (Z.to_nat (4 - 2)) [x01; x02; x00; x03]))
  = 256 * u8_val x00 + u8_val x03.
Proof.
  apply (checksum_u8_ys_zero_iff [x01; x02; x00; x03] 4 x00 x03); done.
Defined.

End ChecksumMore.

(** ** The accessors, the event bits and the packing of the command *)
Module HeaderFacts.

(** X19. The three accessors agree on NULL: board_data is NULL exactly
    when ts_device is, it is the board data of that device otherwise, and
    ts_hw_ops is the device's table, so a caller that got a table from
    ts_hw_ops gets board data and a device too. *)
Theorem accessors_agree {T : Type} (core : option (Accessors.goodix_ts_core T)) :
  (Accessors.board_data T core = None <-> Accessors.ts_device T core = None) /\
  Accessors.board_data T core
  = Accessors.dev_board_data T <$> Accessors.ts_device T core /\
  Accessors.ts_hw_ops T core
  = Accessors.ts_device T core ≫= Accessors.hw_ops T /\
  (is_Some (Accessors.ts_hw_ops T core) ->
   is_Some (Accessors.board_data T core) /\
   is_Some (Accessors.ts_device T core)).
Proof.
  destruct core as [[ini [d|]]|]; simpl.
  - split; [by split|]. split; [done|]. split; [done|]. eauto.
  - split; [done|]. split; [done|]. split; [done|]. by intros [? ?].
  - split; [done|]. split; [done|]. split; [done|]. by intros [? ?].
Qed.

Lemma land_pow2 (z n : Z) :
  0 <= n -> Z.land z (2 ^ n) <> 0 <-> Z.testbit z n = true.
Proof.
  intros Hn. split.
  - intros Hl. destruct (Z.testbit z n) eqn:E; [done|].
    exfalso. apply Hl. apply Z.bits_inj'. intros m Hm.
    rewrite Z.land_spec, Z.bits_0.
    destruct (Z.eq_dec m n) as [->|Hne].
    + by rewrite E.
    + rewrite Z.pow2_bits_false by done. apply andb_false_r.
  - intros Ht Hl.
    assert (Z.testbit (Z.land z (2 ^ n)) n = true) as Hb
      by (rewrite Z.land_spec, Ht, Z.pow2_bits_true by done; done).
    rewrite Hl, Z.bits_0 in Hb. done.
Qed.

(** X20. The four event masks of the status byte test the bits 7, 6, 5 and
    4 of it, one bit each, so every combination of the four events can be
    told from a status byte. *)
Theorem status_bits (status : Z) :
  (Z.land status Decoder.GOODIX_TOUCH_EVENT <> 0
   <-> Z.testbit status 7 = true) /\
  (Z.land status Decoder.GOODIX_REQUEST_EVENT <> 0
   <-> Z.testbit status 6 = true) /\
  (Z.land status Decoder.GOODIX_GESTURE_EVENT <> 0
   <-> Z.testbit status 5 = true) /\
  (Z.land status Decoder.GOODIX_HOTKNOT_EVENT <> 0
   <-> Z.testbit status 4 = true).
Proof.
  repeat split; intros H;
    first [ by apply (land_pow2 status 7)
          | by apply (land_pow2 status 6)
          | by apply (land_pow2 status 5)
          | by apply (land_pow2 status 4) ].
Qed.

(** X21. The layout of struct goodix_ts_cmd does not depend on the packing:
    under every [#pragma pack] of 1, 2, 4, 8 or 16 the members sit at the
    offsets 0, 4, 8 and 12 and the struct takes 20 bytes, with no padding. *)
Theorem goodix_ts_cmd_layout_any_pack (pack : Z) :
  In pack [1; 2; 4; 8; 16] ->
  Cmd.offsets pack Cmd.goodix_ts_cmd_members = [0; 4; 8; 12] /\
  Cmd.struct_size pack Cmd.goodix_ts_cmd_members = 20 /\
  Cmd.struct_size pack Cmd.goodix_ts_cmd_members
  = foldr (fun t n => Cmd.sizeof t + n) 0 Cmd.goodix_ts_cmd_members.
Proof.
  intros Hin. simpl in Hin.
  destruct Hin as [<-|[<-|[<-|[<-|[<-|[]]]]]]; by repeat split.
Qed.

Lemma goodix_ts_cmd_layout_any_pack_witness :
  Cmd.offsets 1 Cmd.goodix_ts_cmd_members = [0; 4; 8; 12].
Proof.
  destruct (goodix_ts_cmd_layout_any_pack 1) as [H _]; [by left|exact H].
Defined.

End HeaderFacts.
